(** * A model of the traced memory image of libipt (pt_image.c)

    The image is an ordered list of mapped sections together with a
    demand-mapping cache.  This file embeds [pt_image_add],
    [pt_image_remove], [pt_image_add_file], [pt_image_read] and the cache
    pruning of pt_image.c, together with the small part of the section,
    mapped-section and address-space-identifier modules they call.  Those
    modules (pt_section.c, pt_mapped_section.h, pt_asid.c) are not part of
    the sources at hand; their definitions below follow the specification
    and say so in their doc comments.

    C pointers to sections are modelled by their identity [sec_id]; a
    pointer to an asid that may be NULL by [option pt_asid]; unsigned
    integers by [Z] with their wrap-around written out; negative C status
    codes by negative [Z]. *)

From Stdlib Require Import ZArith List String Bool Lia Permutation.
Import ListNotations.
Open Scope Z_scope.

(** ** Machine integers *)

Definition u16 (x : Z) : Z := x mod 2 ^ 16.
Definition u64 (x : Z) : Z := x mod 2 ^ 64.

(** ** Error codes (enum pt_error_code of intel-pt.h) *)

Definition pte_internal : Z := 1.
Definition pte_invalid : Z := 2.
Definition pte_nomem : Z := 9.
Definition pte_nomap : Z := 13.
Definition pte_bad_image : Z := 17.
(** The section-level "not mapped" error of the specification; the number
    only has to differ from the others. *)
Definition pte_not_mapped : Z := 24.

(** ** Address space identifiers (struct pt_asid) *)

Record pt_asid := mk_asid {
  asid_size : Z;
  cr3 : Z;
  vmcs : Z
}.

Definition pt_asid_no_cr3 : Z := 2 ^ 64 - 1.
Definition pt_asid_no_vmcs : Z := 2 ^ 64 - 1.

(** sizeof(struct pt_asid): a size_t and two uint64_t. *)
Definition sizeof_pt_asid : Z := 24.

Definition pt_asid_init : pt_asid :=
  mk_asid sizeof_pt_asid pt_asid_no_cr3 pt_asid_no_vmcs.

(** Modelled from the spec: pt_asid_from_user (pt_asid.c is not part of the
    sources).  A missing user asid gives the fully wildcarded asid; an
    oversized user struct is malformed input (Invalid); fields the user's
    size does not cover are left at their sentinel. *)
Definition pt_asid_from_user (user : option pt_asid) : Z * pt_asid :=
  match user with
  | None => (0, pt_asid_init)
  | Some u =>
      if sizeof_pt_asid <? asid_size u then (- pte_invalid, pt_asid_init)
      else (0, mk_asid sizeof_pt_asid
                       (if 16 <=? asid_size u then cr3 u else pt_asid_no_cr3)
                       (if 24 <=? asid_size u then vmcs u else pt_asid_no_vmcs))
  end.

(** Modelled from the spec: pt_asid_match.  Each field must be equal unless
    one side holds the sentinel; a missing (NULL) operand is a null handle
    where a non-null one is required and reported as Internal. *)
Definition pt_asid_match (lhs : pt_asid) (rhs : option pt_asid) : Z :=
  match rhs with
  | None => - pte_internal
  | Some r =>
      if negb (cr3 lhs =? cr3 r) && negb (cr3 lhs =? pt_asid_no_cr3)
         && negb (cr3 r =? pt_asid_no_cr3) then 0
      else if negb (vmcs lhs =? vmcs r) && negb (vmcs lhs =? pt_asid_no_vmcs)
              && negb (vmcs r =? pt_asid_no_vmcs) then 0
      else 1
  end.

(** ** Sections (struct pt_section) *)

(** A section is identified by its address [sec_id]; filename, offset and
    size never change after creation. *)
Record pt_section := mk_section {
  sec_id : nat;
  sec_filename : string;
  sec_offset : Z;
  sec_size : Z
}.

Definition pt_section_filename (s : pt_section) : string := sec_filename s.
Definition pt_section_offset (s : pt_section) : Z := sec_offset s.
Definition pt_section_size (s : pt_section) : Z := sec_size s.

(** The mutable side of all sections: use counts, map counts, the next free
    section address and a clock that ticks at each call into the section
    module, so that failures may depend on the call. *)
Record world := mk_world {
  w_ucount : nat -> Z;
  w_mcount : nat -> Z;
  w_next : nat;
  w_tick : nat
}.

Definition upd (f : nat -> Z) (k : nat) (v : Z) : nat -> Z :=
  fun k' => if Nat.eqb k' k then v else f k'.

Definition set_ucount (w : world) (k : nat) (v : Z) : world :=
  mk_world (upd (w_ucount w) k v) (w_mcount w) (w_next w) (w_tick w).
Definition set_mcount (w : world) (k : nat) (v : Z) : world :=
  mk_world (w_ucount w) (upd (w_mcount w) k v) (w_next w) (w_tick w).
Definition tick (w : world) : world :=
  mk_world (w_ucount w) (w_mcount w) (w_next w) (S (w_tick w)).
Definition bump_next (w : world) : world :=
  mk_world (w_ucount w) (w_mcount w) (S (w_next w)) (w_tick w).

(** The environment: file contents, and which calls into the section module
    fail (I/O and allocation failures), with the error they report. *)
Record env := mk_env {
  file_byte : string -> Z -> Byte.byte;
  malloc_fails : world -> bool;
  clone_fails : world -> pt_section -> option Z;
  map_fails : world -> pt_section -> option Z;
  unmap_fails : world -> pt_section -> option Z
}.

(** Buffers are the bytes of the caller's buffer. *)
Definition buffer := list Byte.byte.

(** The read-memory callback: buffer, size, asid, address and context in;
    status and the buffer as the callback leaves it out. *)
Definition read_memory_callback := buffer -> Z -> pt_asid -> Z -> Z -> Z * buffer.

(** ** Mapped sections (struct pt_mapped_section) *)

Record pt_mapped_section := mk_msec {
  msec_section : pt_section;
  msec_asid : pt_asid;
  msec_vaddr : Z
}.

(** Modelled from the spec: pt_msec_init stores its fields; an absent asid
    is stored as the fully wildcarded asid, as pt_asid_from_user does. *)
Definition pt_msec_init (section : pt_section) (asid : option pt_asid)
    (vaddr : Z) : pt_mapped_section :=
  mk_msec section (match asid with Some a => a | None => pt_asid_init end) vaddr.

Definition pt_msec_begin (m : pt_mapped_section) : Z := msec_vaddr m.
Definition pt_msec_end (m : pt_mapped_section) : Z :=
  u64 (msec_vaddr m + pt_section_size (msec_section m)).
Definition pt_msec_asid (m : pt_mapped_section) : option pt_asid :=
  Some (msec_asid m).

(** Modelled from the spec: pt_msec_matches_asid delegates to the asid
    match. *)
Definition pt_msec_matches_asid (m : pt_mapped_section) (asid : option pt_asid) : Z :=
  pt_asid_match (msec_asid m) asid.

(** ** Section list elements and images (pt_image.h) *)

Record pt_section_list := mk_sl {
  sl_section : pt_mapped_section;
  sl_mapped : bool
}.

Record pt_image := mk_image {
  img_name : option string;
  sections : list pt_section_list;
  readmem_callback : option read_memory_callback;
  readmem_context : Z;
  cache : Z;
  mapped : Z
}.

Definition set_sections (img : pt_image) (l : list pt_section_list) : pt_image :=
  mk_image (img_name img) l (readmem_callback img) (readmem_context img)
           (cache img) (mapped img).
Definition set_mapped (img : pt_image) (m : Z) : pt_image :=
  mk_image (img_name img) (sections img) (readmem_callback img)
           (readmem_context img) (cache img) m.
Definition set_cache (img : pt_image) (c : Z) : pt_image :=
  mk_image (img_name img) (sections img) (readmem_callback img)
           (readmem_context img) c (mapped img).

Definition pt_image_init (name : option string) : pt_image :=
  mk_image name [] None 0 10 0.

Definition set_flag (l : pt_section_list) (b : bool) : pt_section_list :=
  mk_sl (sl_section l) b.

Section Image.

Variable E : env.

(** ** The section module *)

(** Modelled from the spec: pt_section_get takes one more reference. *)
Definition pt_section_get (w : world) (s : pt_section) : Z * world :=
  (0, set_ucount w (sec_id s) (w_ucount w (sec_id s) + 1)).

(** Modelled from the spec: pt_section_put drops a reference; dropping the
    last one destroys the section, which releases any mapping it still has.
    Dropping a reference nobody holds is a precondition violation. *)
Definition pt_section_put (w : world) (s : pt_section) : Z * world :=
  let k := sec_id s in
  let c := w_ucount w k in
  if c <=? 0 then (- pte_internal, w)
  else if c =? 1 then (0, set_mcount (set_ucount w k 0) k 0)
  else (0, set_ucount w k (c - 1)).

(** Modelled from the spec: pt_section_map may fail; otherwise it nests. *)
Definition pt_section_map (w : world) (s : pt_section) : Z * world :=
  match map_fails E w s with
  | Some e => (e, tick w)
  | None => (0, tick (set_mcount w (sec_id s) (w_mcount w (sec_id s) + 1)))
  end.

(** Modelled from the spec: pt_section_unmap is the inverse of map and may
    fail with an I/O error; unmapping a section that is not mapped is a
    section lifecycle error. *)
Definition pt_section_unmap (w : world) (s : pt_section) : Z * world :=
  match unmap_fails E w s with
  | Some e => (e, tick w)
  | None =>
      let c := w_mcount w (sec_id s) in
      if c <=? 0 then (- pte_not_mapped, tick w)
      else (0, tick (set_mcount w (sec_id s) (c - 1)))
  end.

(** Modelled from the spec: pt_section_clone creates a new section, with
    one reference and not mapped, for a subrange of its parent's file
    range; it may fail (allocation). *)
Definition pt_section_clone (w : world) (parent : pt_section) (offset size : Z)
    : Z * option pt_section * world :=
  if (offset <? sec_offset parent)
     || (sec_offset parent + sec_size parent <? offset + size) then
    (- pte_internal, None, w)
  else match clone_fails E w parent with
  | Some e => (e, None, tick w)
  | None =>
      let s := mk_section (w_next w) (sec_filename parent) offset size in
      (0, Some s,
       tick (bump_next (set_mcount (set_ucount w (sec_id s) 1) (sec_id s) 0)))
  end.

(** Modelled from the spec: pt_mk_section makes a section for a file range
    with one reference, not mapped; an empty range is rejected. *)
Definition pt_mk_section (w : world) (filename : string) (offset size : Z)
    : option pt_section * world :=
  if size =? 0 then (None, w)
  else if malloc_fails E w then (None, tick w)
  else
    let s := mk_section (w_next w) filename offset size in
    (Some s, tick (bump_next (set_mcount (set_ucount w (sec_id s) 1) (sec_id s) 0))).

(** ** List elements *)

Definition pt_mk_section_list (w : world) (section : pt_section)
    (asid : option pt_asid) (vaddr : Z) : option pt_section_list * world :=
  if malloc_fails E w then (None, tick w)
  else
    let w := tick w in
    let (errcode, w) := pt_section_get w section in
    if errcode <? 0 then (None, w)
    else (Some (mk_sl (pt_msec_init section asid vaddr) false), w).

Definition pt_section_list_free (w : world) (l : pt_section_list) : world :=
  let sec := msec_section (sl_section l) in
  let w := if sl_mapped l then snd (pt_section_unmap w sec) else w in
  snd (pt_section_put w sec).

Definition pt_section_list_free_tail (w : world) (l : list pt_section_list) : world :=
  fold_left pt_section_list_free l w.

(** ** pt_image_clone *)

(** Add a list element for the part [begin, end) of [msec] in front of
    [next]. *)
Definition pt_image_clone (w : world) (next : list pt_section_list)
    (msec : pt_mapped_section) (begin end_ : Z)
    : Z * list pt_section_list * world :=
  let sec := msec_section msec in
  let mbegin := pt_msec_begin msec in
  let sbegin := pt_section_offset sec in
  if end_ <=? begin then (- pte_internal, next, w)
  else if begin <? mbegin then (- pte_internal, next, w)
  else
    let offset := u64 (begin - mbegin) in
    let size := u64 (end_ - begin) in
    match pt_section_clone w sec (u64 (sbegin + offset)) size with
    | (errcode, None, w) => (errcode, next, w)
    | (_, Some section, w) =>
        match pt_mk_section_list w section (pt_msec_asid msec) begin with
        | (None, w) => (- pte_nomem, next, snd (pt_section_put w section))
        | (Some l, w) =>
            (* The image list got its own reference; let's drop ours. *)
            let (errcode, w) := pt_section_put w section in
            if errcode <? 0 then (errcode, next, pt_section_list_free w l)
            else (0, l :: next, w)
        end
    end.

(** ** pt_image_add *)

(** The state of the overlap loop when it stops: the identical-overlap
    shortcut returned; the loop broke with an error, the image list being
    [cur]; or the loop reached the end of the list, the image list being
    [kept].  [removed] and [next] are the C lists of the same names, head
    first. *)
Inductive add_loop_result :=
| ALDedup (w : world)
| ALBreak (errcode : Z) (w : world) (cur removed next : list pt_section_list)
| ALDone (w : world) (kept removed next : list pt_section_list).

Fixpoint pt_image_add_loop (w : world) (section : pt_section)
    (asid : option pt_asid) (begin end_ : Z)
    (kept rest removed next : list pt_section_list) : add_loop_result :=
  match rest with
  | [] => ALDone w kept removed next
  | current :: rest' =>
      let msec := sl_section current in
      let errcode := pt_msec_matches_asid msec asid in
      if errcode <? 0 then ALBreak errcode w (kept ++ rest) removed next
      else if errcode =? 0 then
        pt_image_add_loop w section asid begin end_
          (kept ++ [current]) rest' removed next
      else
        let lbegin := pt_msec_begin msec in
        let lend := pt_msec_end msec in
        if (end_ <=? lbegin) || (lend <=? begin) then
          pt_image_add_loop w section asid begin end_
            (kept ++ [current]) rest' removed next
        else
          let lsec := msec_section msec in
          (* Filenames are never NULL in this model, so the -pte_internal
             check for missing filenames cannot fire. *)
          if (begin =? lbegin) && (end_ =? lend)
             && String.eqb (pt_section_filename section) (pt_section_filename lsec)
          then
            match removed, next with
            | [], [n] => ALDedup (pt_section_list_free w n)
            | _, _ => ALBreak (- pte_internal) w (kept ++ rest) removed next
            end
          else
            (* Unlink [current], keep it in [removed] and unmap it. *)
            let w := if sl_mapped current then snd (pt_section_unmap w lsec) else w in
            let removed := set_flag current false :: removed in
            let front :=
              if lbegin <? begin then pt_image_clone w next msec lbegin begin
              else (0, next, w) in
            match front with
            | (errcode, next, w) =>
                if errcode <? 0 then ALBreak errcode w (kept ++ rest') removed next
                else
                  let back :=
                    if end_ <? lend then pt_image_clone w next msec end_ lend
                    else (0, next, w) in
                  match back with
                  | (errcode, next, w) =>
                      if errcode <? 0 then ALBreak errcode w (kept ++ rest') removed next
                      else pt_image_add_loop w section asid begin end_
                             kept rest' removed next
                  end
            end
  end.

(** [image] and [section] are values here, so the NULL checks of the C
    function have no counterpart. *)
Definition pt_image_add (img : pt_image) (w : world) (section : pt_section)
    (asid : option pt_asid) (vaddr : Z) : Z * pt_image * world :=
  match pt_mk_section_list w section asid vaddr with
  | (None, w) => (- pte_nomem, img, w)
  | (Some n, w) =>
      let begin := vaddr in
      let end_ := u64 (begin + pt_section_size section) in
      match pt_image_add_loop w section asid begin end_ [] (sections img) [] [n] with
      | ALDedup w => (0, img, w)
      | ALBreak errcode w cur removed next =>
          let w := pt_section_list_free_tail w next in
          (* Re-add removed sections to the tail of the section list. *)
          (errcode, set_sections img (cur ++ removed), w)
      | ALDone w kept removed next =>
          let w := pt_section_list_free_tail w removed in
          (0, set_sections img (kept ++ next), w)
      end
  end.

(** ** pt_image_remove *)

Fixpoint pt_image_remove_loop (w : world) (section : pt_section)
    (asid : option pt_asid) (vaddr : Z) (prefix rest : list pt_section_list)
    : Z * list pt_section_list * world :=
  match rest with
  | [] => (- pte_bad_image, prefix, w)
  | trash :: rest' =>
      let msec := sl_section trash in
      let errcode := pt_msec_matches_asid msec asid in
      if errcode <? 0 then (errcode, prefix ++ rest, w)
      else if errcode =? 0 then
        pt_image_remove_loop w section asid vaddr (prefix ++ [trash]) rest'
      else if Nat.eqb (sec_id (msec_section msec)) (sec_id section)
              && (msec_vaddr msec =? vaddr) then
        (0, prefix ++ rest', pt_section_list_free w trash)
      else pt_image_remove_loop w section asid vaddr (prefix ++ [trash]) rest'
  end.

Definition pt_image_remove (img : pt_image) (w : world) (section : pt_section)
    (asid : option pt_asid) (vaddr : Z) : Z * pt_image * world :=
  match pt_image_remove_loop w section asid vaddr [] (sections img) with
  | (errcode, l, w) => (errcode, set_sections img l, w)
  end.

(** ** pt_image_add_file *)

Definition pt_image_add_file (img : pt_image) (w : world) (filename : string)
    (offset size : Z) (uasid : option pt_asid) (vaddr : Z)
    : Z * pt_image * world :=
  let (errcode, asid) := pt_asid_from_user uasid in
  if errcode <? 0 then (errcode, img, w)
  else
    match pt_mk_section w filename offset size with
    | (None, w) => (- pte_invalid, img, w)
    | (Some section, w) =>
        match pt_image_add img w section (Some asid) vaddr with
        | (errcode, img, w) =>
            if errcode <? 0 then (errcode, img, snd (pt_section_put w section))
            else
              (* The image list got its own reference; let's drop ours. *)
              let (errcode, w) := pt_section_put w section in
              if errcode <? 0 then (errcode, img, w) else (0, img, w)
        end
    end.

(** ** Cache pruning *)

(** The loop of pt_image_prune_cache over the list: [status] and [mapped]
    are the C locals of the same names.  The last component is a ghost
    record of what each call to pt_section_unmap returned, in call order. *)
Fixpoint pt_image_prune_loop (w : world) (cache_ status mapped_ : Z)
    (l : list pt_section_list) : list pt_section_list * Z * Z * world * list Z :=
  match l with
  | [] => ([], status, mapped_, w, [])
  | elem :: l' =>
      if negb (sl_mapped elem) then
        let '(l'', status, mapped_, w, log) := pt_image_prune_loop w cache_ status mapped_ l' in
        (elem :: l'', status, mapped_, w, log)
      else
        let mapped_ := u16 (mapped_ + 1) in
        if mapped_ <=? cache_ then
          let '(l'', status, mapped_, w, log) := pt_image_prune_loop w cache_ status mapped_ l' in
          (elem :: l'', status, mapped_, w, log)
        else
          let (errcode, w) := pt_section_unmap w (msec_section (sl_section elem)) in
          if errcode <? 0 then
            let '(l'', status, mapped_, w, log) :=
              pt_image_prune_loop w cache_ errcode mapped_ l' in
            (elem :: l'', status, mapped_, w, errcode :: log)
          else
            let '(l'', status, mapped_, w, log) :=
              pt_image_prune_loop w cache_ status (u16 (mapped_ - 1)) l' in
            (set_flag elem false :: l'', status, mapped_, w, errcode :: log)
  end.

Definition pt_image_prune_cache (img : pt_image) (w : world) : Z * pt_image * world :=
  let '(l, status, mapped_, w, _) := pt_image_prune_loop w (cache img) 0 0 (sections img) in
  (status, set_mapped (set_sections img l) mapped_, w).

(** The statuses of the unmap calls one pruning pass makes, in order. *)
Definition pt_image_prune_unmaps (img : pt_image) (w : world) : list Z :=
  let '(_, _, _, _, log) := pt_image_prune_loop w (cache img) 0 0 (sections img) in log.

(** ** Reading *)

(** Modelled from the spec: pt_section_read copies up to [size] bytes of the
    section, starting [off] bytes into it, and truncates at the section end;
    the section must be mapped. *)
Definition pt_section_read (w : world) (s : pt_section) (buf : buffer)
    (size off : Z) : Z * buffer :=
  if w_mcount w (sec_id s) <=? 0 then (- pte_not_mapped, buf)
  else if (off <? 0) || (sec_size s <=? off) then (- pte_nomap, buf)
  else
    let n := Z.min size (sec_size s - off) in
    let bytes := map (fun i => file_byte E (sec_filename s) (sec_offset s + off + Z.of_nat i))
                     (seq 0 (Z.to_nat n)) in
    (n, bytes ++ skipn (Z.to_nat n) buf).

(** Modelled from the spec: pt_msec_read_mapped requires a matching asid
    and an address inside [begin, end); otherwise NoMap. *)
Definition pt_msec_read_mapped (w : world) (msec : pt_mapped_section)
    (buf : buffer) (size : Z) (asid : option pt_asid) (addr : Z) : Z * buffer :=
  let status := pt_msec_matches_asid msec asid in
  if status <? 0 then (status, buf)
  else if status =? 0 then (- pte_nomap, buf)
  else if (addr <? pt_msec_begin msec) || (pt_msec_end msec <=? addr) then (- pte_nomap, buf)
  else pt_section_read w (msec_section msec) buf size (addr - pt_msec_begin msec).

Definition pt_image_read_callback (img : pt_image) (buf : buffer) (size : Z)
    (asid : pt_asid) (addr : Z) : Z * buffer :=
  match readmem_callback img with
  | None => (- pte_nomap, buf)
  | Some callback => callback buf size asid addr (readmem_context img)
  end.

(** pt_image_read_cold, starting at the element [rest] points to; the image
    list is [prefix ++ rest]. *)
Fixpoint pt_image_read_cold (img : pt_image) (w : world) (buf : buffer) (size : Z)
    (asid : pt_asid) (addr : Z) (prefix rest : list pt_section_list)
    : Z * buffer * pt_image * world :=
  match rest with
  | [] =>
      let (status, buf) := pt_image_read_callback img buf size asid addr in
      (status, buf, img, w)
  | elem :: rest' =>
      let msec := sl_section elem in
      let sec := msec_section msec in
      let was_mapped := sl_mapped elem in
      let (errcode, w) := if was_mapped then (0, w) else pt_section_map w sec in
      if errcode <? 0 then (errcode, buf, img, w)
      else
        let (status, buf) := pt_msec_read_mapped w msec buf size (Some asid) addr in
        if status <? 0 then
          let (errcode, w) := if was_mapped then (0, w) else pt_section_unmap w sec in
          if errcode <? 0 then (errcode, buf, img, w)
          else pt_image_read_cold img w buf size asid addr (prefix ++ [elem]) rest'
        else
          (* Move the section to the front if it isn't already. *)
          let img := set_sections img (elem :: prefix ++ rest') in
          if was_mapped then (status, buf, img, w)
          else
            let already := mapped img in
            let cache_ := cache img in
            if negb (cache_ =? 0) then
              let img := set_sections img (set_flag elem true :: prefix ++ rest') in
              let already := u16 (already + 1) in
              let img := set_mapped img already in
              if cache_ <? already then
                match pt_image_prune_cache img w with
                | (errcode, img, w) =>
                    if errcode <? 0 then (errcode, buf, img, w) else (status, buf, img, w)
                end
              else (status, buf, img, w)
            else
              let (errcode, w) := pt_section_unmap w sec in
              if errcode <? 0 then (errcode, buf, img, w) else (status, buf, img, w)
  end.

(** The first loop of pt_image_read, over the mapped elements at the front. *)
Fixpoint pt_image_read_hot (img : pt_image) (w : world) (buf : buffer) (size : Z)
    (asid : pt_asid) (addr : Z) (prefix rest : list pt_section_list)
    : Z * buffer * pt_image * world :=
  match rest with
  | [] => pt_image_read_cold img w buf size asid addr prefix rest
  | elem :: rest' =>
      if negb (sl_mapped elem) then
        pt_image_read_cold img w buf size asid addr prefix rest
      else
        let (status, buf) := pt_msec_read_mapped w (sl_section elem) buf size (Some asid) addr in
        if status <? 0 then
          pt_image_read_hot img w buf size asid addr (prefix ++ [elem]) rest'
        else
          (* Move the section to the front if it isn't already. *)
          (status, buf, set_sections img (elem :: prefix ++ rest'), w)
  end.

Definition pt_image_read (img : pt_image) (w : world) (buf : buffer) (size : Z)
    (asid : option pt_asid) (addr : Z) : Z * buffer * pt_image * world :=
  match asid with
  | None => (- pte_internal, buf, img, w)
  | Some a => pt_image_read_hot img w buf size a addr [] (sections img)
  end.

(** ** pt_image_fini *)

(** The name is freed and the whole image cleared; the elements are freed
    in list order. *)
Definition pt_image_fini (img : pt_image) (w : world) : pt_image * world :=
  let w := pt_section_list_free_tail w (sections img) in
  (mk_image None [] None 0 0 0, w).

(** ** pt_image_copy *)

(** The loop of pt_image_copy over the elements of [src]; [ignored] is the C
    local of the same name.  [src] is taken as it is when the copy starts:
    the two images are distinct objects. *)
Fixpoint pt_image_copy_loop (img : pt_image) (w : world) (ignored : Z)
    (l : list pt_section_list) : Z * pt_image * world :=
  match l with
  | [] => (ignored, img, w)
  | list :: l' =>
      let msec := sl_section list in
      match pt_image_add img w (msec_section msec) (Some (msec_asid msec)) (msec_vaddr msec) with
      | (errcode, img, w) =>
          pt_image_copy_loop img w (if errcode <? 0 then ignored + 1 else ignored) l'
      end
  end.

Definition pt_image_copy (img : pt_image) (w : world) (src : pt_image) : Z * pt_image * world :=
  pt_image_copy_loop img w 0 (sections src).

(** ** pt_image_remove_by_filename *)

(** The loop of pt_image_remove_by_filename; the image list is
    [prefix ++ rest], the elements unlinked so far being gone. *)
Fixpoint pt_image_remove_by_filename_loop (w : world) (filename : string)
    (asid : pt_asid) (removed : Z) (prefix rest : list pt_section_list)
    : Z * list pt_section_list * world :=
  match rest with
  | [] => (removed, prefix, w)
  | trash :: rest' =>
      let msec := sl_section trash in
      let errcode := pt_msec_matches_asid msec (Some asid) in
      if errcode <? 0 then (errcode, prefix ++ rest, w)
      else if errcode =? 0 then
        pt_image_remove_by_filename_loop w filename asid removed (prefix ++ [trash]) rest'
      else
        (* Filenames are never NULL in this model. *)
        let tname := pt_section_filename (msec_section msec) in
        if String.eqb tname filename then
          pt_image_remove_by_filename_loop (pt_section_list_free w trash) filename asid
            (removed + 1) prefix rest'
        else
          pt_image_remove_by_filename_loop w filename asid removed (prefix ++ [trash]) rest'
  end.

Definition pt_image_remove_by_filename (img : pt_image) (w : world) (filename : string)
    (uasid : option pt_asid) : Z * pt_image * world :=
  let (errcode, asid) := pt_asid_from_user uasid in
  if errcode <? 0 then (errcode, img, w)
  else
    match pt_image_remove_by_filename_loop w filename asid 0 [] (sections img) with
    | (r, l, w) => (r, set_sections img l, w)
    end.

(** ** pt_image_remove_by_asid *)

Fixpoint pt_image_remove_by_asid_loop (w : world) (asid : pt_asid) (removed : Z)
    (prefix rest : list pt_section_list) : Z * list pt_section_list * world :=
  match rest with
  | [] => (removed, prefix, w)
  | trash :: rest' =>
      let msec := sl_section trash in
      let errcode := pt_msec_matches_asid msec (Some asid) in
      if errcode <? 0 then (errcode, prefix ++ rest, w)
      else if errcode =? 0 then
        pt_image_remove_by_asid_loop w asid removed (prefix ++ [trash]) rest'
      else
        pt_image_remove_by_asid_loop (pt_section_list_free w trash) asid (removed + 1)
          prefix rest'
  end.

Definition pt_image_remove_by_asid (img : pt_image) (w : world) (uasid : option pt_asid)
    : Z * pt_image * world :=
  let (errcode, asid) := pt_asid_from_user uasid in
  if errcode <? 0 then (errcode, img, w)
  else
    match pt_image_remove_by_asid_loop w asid 0 [] (sections img) with
    | (r, l, w) => (r, set_sections img l, w)
    end.

End Image.

(** ** Observations on images *)

(** The number of list elements whose mapped flag is set. *)
Fixpoint count_mapped (l : list pt_section_list) : Z :=
  match l with
  | [] => 0
  | e :: l' => (if sl_mapped e then 1 else 0) + count_mapped l'
  end.

(** What a list element maps: filename, file offset and size of its section
    and the virtual address it is mapped at. *)
Definition entry_view (l : pt_section_list) : string * Z * Z * Z :=
  let m := sl_section l in
  (sec_filename (msec_section m), sec_offset (msec_section m),
   sec_size (msec_section m), msec_vaddr m).

(** An element the overlap loop of [pt_image_add] steps over for an added
    range [begin, end_): its asid does not match, or it does not overlap. *)
Definition add_skips (asid : option pt_asid) (begin end_ : Z) (l : pt_section_list) : Prop :=
  pt_msec_matches_asid (sl_section l) asid = 0
  \/ (pt_msec_matches_asid (sl_section l) asid = 1
      /\ (end_ <= pt_msec_begin (sl_section l) \/ pt_msec_end (sl_section l) <= begin)).

(** The last negative status of a list of statuses, 0 if there is none. *)
Fixpoint last_error (l : list Z) : Z :=
  match l with
  | [] => 0
  | e :: l' =>
      let r := last_error l' in
      if r <? 0 then r else if e <? 0 then e else 0
  end.

(** The number of elements of [l] for the section with id [k], and the
    number of those whose mapped flag is set. *)
Fixpoint refs (k : nat) (l : list pt_section_list) : Z :=
  match l with
  | [] => 0
  | x :: l' =>
      (if Nat.eqb (sec_id (msec_section (sl_section x))) k then 1 else 0) + refs k l'
  end.

Fixpoint mrefs (k : nat) (l : list pt_section_list) : Z :=
  match l with
  | [] => 0
  | x :: l' =>
      (if Nat.eqb (sec_id (msec_section (sl_section x))) k && sl_mapped x then 1 else 0)
      + mrefs k l'
  end.

(** The number of failed calls in a list of statuses. *)
Fixpoint nfail (log : list Z) : Z :=
  match log with
  | [] => 0
  | e :: log' => (if e <? 0 then 1 else 0) + nfail log'
  end.

(** The mapped flags a pruning pass is to leave, as the spec describes it:
    the first [k] elements flagged mapped stay mapped; every later one is
    unmapped, its flag staying set exactly when its unmap call, the next
    status of [log], failed. *)
Fixpoint prune_flags (k : Z) (l : list pt_section_list) (log : list Z) : list bool :=
  match l with
  | [] => []
  | x :: l' =>
      if sl_mapped x then
        if 0 <? k then true :: prune_flags (k - 1) l' log
        else match log with
             | [] => true :: prune_flags k l' []
             | e :: log' => (e <? 0) :: prune_flags k l' log'
             end
      else false :: prune_flags k l' log
  end.

(** The section of an element. *)
Definition sl_sec (l : pt_section_list) : pt_section := msec_section (sl_section l).

(** The world after a read has tried, and failed to read from, the elements
    of [l]: each element not flagged mapped is mapped and unmapped again. *)
Fixpoint fallback_world (E : env) (w : world) (l : list pt_section_list) : world :=
  match l with
  | [] => w
  | y :: l' =>
      if sl_mapped y then fallback_world E w l'
      else fallback_world E (snd (pt_section_unmap E (snd (pt_section_map E w (sl_sec y))) (sl_sec y))) l'
  end.

(** No map or unmap call fails while a read tries the elements of [l] in
    turn from world [w]. *)
Fixpoint fallback_calls_ok (E : env) (w : world) (l : list pt_section_list) : Prop :=
  match l with
  | [] => True
  | y :: l' =>
      if sl_mapped y then fallback_calls_ok E w l'
      else map_fails E w (sl_sec y) = None
           /\ unmap_fails E (snd (pt_section_map E w (sl_sec y))) (sl_sec y) = None
           /\ fallback_calls_ok E (snd (pt_section_unmap E (snd (pt_section_map E w (sl_sec y))) (sl_sec y))) l'
  end.

(** Whether the asid of an element matches [a]. *)
Definition elem_matches (a : pt_asid) (x : pt_section_list) : bool :=
  pt_msec_matches_asid (sl_section x) (Some a) =? 1.

(** Whether an element overlaps the range [b, e). *)
Definition overlaps (b e : Z) (y : pt_section_list) : bool :=
  (pt_msec_begin (sl_section y) <? e) && (b <? pt_msec_end (sl_section y)).

(** Two elements clash when their asids match and their ranges overlap. *)
Definition clashes (x y : pt_section_list) : bool :=
  (pt_asid_match (msec_asid (sl_section x)) (Some (msec_asid (sl_section y))) =? 1)
  && overlaps (pt_msec_begin (sl_section x)) (pt_msec_end (sl_section x)) y.

(** No element of the list clashes with a later one. *)
Fixpoint no_clashes (l : list pt_section_list) : bool :=
  match l with
  | [] => true
  | x :: l' => forallb (fun y => negb (clashes x y)) l' && no_clashes l'
  end.

(** [img'] holds the same mapped sections as [img], possibly in another
    order and with other mapped flags, and has the same name, callback,
    callback context and cache size. *)
Definition same_entries (img img' : pt_image) : Prop :=
  Permutation (map sl_section (sections img')) (map sl_section (sections img))
  /\ img_name img' = img_name img
  /\ readmem_callback img' = readmem_callback img
  /\ readmem_context img' = readmem_context img
  /\ cache img' = cache img.

(** ** Concrete environments and inputs *)

Open Scope string_scope.

(** Files are all zero bytes; no call into the section module fails. *)
Definition env_ok : env :=
  mk_env (fun _ _ => Byte.x00) (fun _ => false)
         (fun _ _ => None) (fun _ _ => None) (fun _ _ => None).

(** Mapping any section fails for lack of memory. *)
Definition env_map_fails : env :=
  mk_env (fun _ _ => Byte.x00) (fun _ => false)
         (fun _ _ => None) (fun _ _ => Some (- pte_nomem)) (fun _ _ => None).

(** Unmapping the sections at addresses 1 and 2 fails, with two different
    errors. *)
Definition env_unmap_fails : env :=
  mk_env (fun _ _ => Byte.x00) (fun _ => false)
         (fun _ _ => None) (fun _ _ => None)
         (fun _ s => match sec_id s with
                     | 1%nat => Some (- pte_nomem)
                     | 2%nat => Some (- pte_internal)
                     | _ => None
                     end).

(** Unmapping the section at address 2 fails; no other call fails. *)
Definition env_unmap2_fails : env :=
  mk_env (fun _ _ => Byte.x00) (fun _ => false)
         (fun _ _ => None) (fun _ _ => None)
         (fun _ s => if Nat.eqb (sec_id s) 2 then Some (- pte_nomem) else None).

(** No section exists yet; the first one will be made at address 1. *)
Definition w0 : world := mk_world (fun _ => 0) (fun _ => 0) 1 0.

Definition asid_cr3 (c : Z) : pt_asid := mk_asid sizeof_pt_asid c pt_asid_no_vmcs.
Definition asid0 : option pt_asid := Some (asid_cr3 1).
Definition asid1 : option pt_asid := Some (asid_cr3 2).

(** A callback that reads one byte 0xab wherever it is asked. *)
Definition cb_ab : read_memory_callback :=
  fun buf _ _ _ _ => (1, Byte.xab :: skipn 1 buf).

Definition set_callback (img : pt_image) (cb : option read_memory_callback) (ctx : Z)
    : pt_image :=
  mk_image (img_name img) (sections img) cb ctx (cache img) (mapped img).

(** ** Selecting list elements by a mask *)

(** The elements whose mask bit is false, in order (the rest of [l] when the
    mask is short). *)
Fixpoint mask_keep {A} (m : list bool) (l : list A) : list A :=
  match m, l with
  | b :: m', x :: l' => if b then mask_keep m' l' else x :: mask_keep m' l'
  | _, _ => l
  end.

(** The elements whose mask bit is true, in order. *)
Fixpoint mask_take {A} (m : list bool) (l : list A) : list A :=
  match m, l with
  | b :: m', x :: l' => if b then x :: mask_take m' l' else mask_take m' l'
  | _, _ => []
  end.

(** The image and world of the C1 counterexample: /x mapped in cr3=1 and
    /a at the same range in cr3=2. *)
Definition c1_state : pt_image * world :=
  let '(_, img, w) := pt_image_add_file env_ok (pt_image_init None) w0 "/x" 0 0x100 asid0 0 in
  let '(_, img, w) := pt_image_add_file env_ok img w "/a" 0 0x100 asid1 0 in
  let '(_, _, img, w) := pt_image_read env_ok img w [] 4 asid0 0 in
  (img, w).

(** The image and world of the C9 witness: /a at [0, 0x100) in cr3=1. *)
Definition c9_state : pt_image * world :=
  let '(_, img, w) := pt_image_add_file env_ok (pt_image_init None) w0 "/a" 0 0x100 asid0 0 in
  (img, w).

(** The image after /b has been added over [0, 0x200) in address space
    cr3=1, and a section for /a, offset 0, size 0x100, not yet used. *)
Definition c4_state : pt_image * world :=
  let '(_, img, w) := pt_image_add_file env_ok (pt_image_init None) w0 "/b" 0 0x200 asid0 0 in
  (img, w).

Definition c4_section : pt_section := mk_section 7 "/a" 0 0x100.

(** The image and world after [c1_state] has also been read at address 0 in
    cr3=2: /a is moved to the front and mapped, and /x stays mapped. *)
Definition two_mapped_state : pt_image * world :=
  let '(img, w) := c1_state in
  let '(_, _, img, w) := pt_image_read env_ok img w [] 4 asid1 0 in
  (img, w).

(** A mapped list element for the first 0x100 bytes of [filename], mapped at
    address 0 in cr3=[c]. *)
Definition mapped_elem (id : nat) (filename : string) (c : Z) : pt_section_list :=
  mk_sl (mk_msec (mk_section id filename 0 0x100) (asid_cr3 c) 0) true.

Definition elem_a : pt_section_list := mapped_elem 2 "/a" 2.
Definition elem_x : pt_section_list := mapped_elem 1 "/x" 1.

(** The world of [two_mapped_state] with one more reference to /x, held
    outside the image. *)
Definition held_world : world :=
  snd (pt_section_get (snd two_mapped_state) (mk_section 1 "/x" 0 0x100)).

(** [two_mapped_state]'s image with room for one mapped section only. *)
Definition small_cache_image : pt_image := set_cache (fst two_mapped_state) 1.

(** A section for /b at offset 0x100, size 0x100, made after [c9_state];
    [b_world] is the world that holds its one reference. *)
Definition section_b : pt_section := mk_section 2 "/b" 0x100 0x100.
Definition b_world : world :=
  snd (pt_mk_section env_ok (snd c9_state) "/b" 0x100 0x100).

(** Three resident sections /s3, /s2, /s1 (at addresses 3, 2, 1), most
    recently read first, read with a cache of three, then the cache cut to
    one. *)
Definition prune_state : pt_image * world :=
  let '(_, img, w) := pt_image_add_file env_ok (set_cache (pt_image_init None) 3) w0 "/s1" 0 16 asid0 0 in
  let '(_, img, w) := pt_image_add_file env_ok img w "/s2" 0 16 asid0 16 in
  let '(_, img, w) := pt_image_add_file env_ok img w "/s3" 0 16 asid0 32 in
  let '(_, _, img, w) := pt_image_read env_ok img w [] 4 asid0 0 in
  let '(_, _, img, w) := pt_image_read env_ok img w [] 4 asid0 16 in
  let '(_, _, img, w) := pt_image_read env_ok img w [] 4 asid0 32 in
  (set_cache img 1, w).

Definition prune_image : pt_image := fst prune_state.
Definition prune_world : world := snd prune_state.

(** The image holding /a over [0, 0x100) in address spaces cr3=1 and
    cr3=2, in that order. *)
Definition cr3_pair_state : pt_image * world :=
  let '(_, img, w) := pt_image_add_file env_ok (pt_image_init None) w0 "/a" 0 0x100 asid0 0 in
  let '(_, img, w) := pt_image_add_file env_ok img w "/a" 0 0x100 asid1 0 in
  (img, w).

(** A user asid with both cr3 and vmcs given. *)
Definition asid_full : pt_asid := mk_asid sizeof_pt_asid 1 7.

(** The image after /a has been added, with a callback that reads one
    byte 0xab. *)
Definition fallback_image : pt_image := set_callback (fst c9_state) (Some cb_ab) 0.

(** * Concrete runs *)

(** C3: starting from an empty image, adding /a at 0x10000 (0x1000 bytes)
    and then /b at 0x10400 (0x100 bytes) in the same address space both
    succeed and split /a around /b: the image holds /a's file range
    [0, 0x400) at 0x10000, all of /b at 0x10400, and /a's file range
    [0x500, 0x1000) at 0x10500, in some order. *)
Theorem add_file_overlap_split :
  let '(e1, img1, w1) :=
    pt_image_add_file env_ok (pt_image_init None) w0 "/a" 0 0x1000 asid0 0x10000 in
  let '(e2, img2, _) := pt_image_add_file env_ok img1 w1 "/b" 0 0x100 asid0 0x10400 in
  e1 = 0 /\ e2 = 0 /\
  Permutation (map entry_view (sections img2))
    [("/a", 0, 0x400, 0x10000); ("/b", 0, 0x100, 0x10400);
     ("/a", 0x500, 0xb00, 0x10500)].
Proof.
  vm_compute. split; [reflexivity | split; [reflexivity |]].
  eapply perm_trans; [apply perm_swap |].
  apply perm_skip, perm_swap.
Qed.

(** C5: with a cache of two sections and three disjoint 16-byte sections
    s0, s1, s2 added to an empty image, reading from s0, then s1, then s2
    succeeds each time and leaves two sections resident, s0's element
    unmapped and s2's element at the head of the list. *)
Theorem read_lru_promotion_prune :
  let img := set_cache (pt_image_init None) 2 in
  let '(a0, img, w) := pt_image_add_file env_ok img w0 "/s0" 0 16 asid0 0x1000 in
  let '(a1, img, w) := pt_image_add_file env_ok img w "/s1" 0 16 asid0 0x2000 in
  let '(a2, img, w) := pt_image_add_file env_ok img w "/s2" 0 16 asid0 0x3000 in
  let '(r0, _, img, w) := pt_image_read env_ok img w [] 4 asid0 0x1000 in
  let '(r1, _, img, w) := pt_image_read env_ok img w [] 4 asid0 0x2000 in
  let '(r2, _, img, _) := pt_image_read env_ok img w [] 4 asid0 0x3000 in
  a0 = 0 /\ a1 = 0 /\ a2 = 0 /\ 0 <= r0 /\ 0 <= r1 /\ 0 <= r2 /\
  mapped img = 2 /\
  Forall (fun l => sec_filename (msec_section (sl_section l)) = "/s0" -> sl_mapped l = false)
         (sections img) /\
  In (("/s0", 0, 16, 0x1000), false) (map (fun l => (entry_view l, sl_mapped l)) (sections img)) /\
  option_map entry_view (hd_error (sections img)) = Some ("/s2", 0, 16, 0x3000).
Proof.
  vm_compute.
  repeat split; try discriminate.
  - repeat constructor; discriminate.
  - right; right; left; reflexivity.
Qed.

(** C2 (failing input): the residency counter keeps counting an element
    that [pt_image_add] unmapped and replaced.  After /a is read (and so
    mapped) and /b is added over the same range, the counter is 1 while no
    element is mapped. *)
Theorem residency_counter_stale_after_add :
  let '(_, img, w) := pt_image_add_file env_ok (pt_image_init None) w0 "/a" 0 16 asid0 0x1000 in
  let '(r, _, img, w) := pt_image_read env_ok img w [] 4 asid0 0x1000 in
  let '(e, img, _) := pt_image_add_file env_ok img w "/b" 0 16 asid0 0x1000 in
  r = 4 /\ e = 0 /\ mapped img = 1 /\ count_mapped (sections img) = 0.
Proof. vm_compute. repeat split. Qed.

(** C1 (counterexample): an add that fails is not undone exactly.  /x is
    mapped in address space cr3=1 and /a sits at the same range in cr3=2;
    adding /a there with the wildcard asid detaches /x, then meets /a and
    stops with Internal.  /x comes back at the tail, unmapped. *)
Lemma add_error_reorders_image :
  let '(img, w) := c1_state in
  let '(e, img', _) := pt_image_add env_ok img w (mk_section 3 "/a" 0 0x100) (Some pt_asid_init) 0 in
  e = - pte_internal /\
  map (fun l => (entry_view l, sl_mapped l)) (sections img)
    = [(("/x", 0, 0x100, 0), true); (("/a", 0, 0x100, 0), false)] /\
  map (fun l => (entry_view l, sl_mapped l)) (sections img')
    = [(("/a", 0, 0x100, 0), false); (("/x", 0, 0x100, 0), false)].
Proof. vm_compute. repeat split. Qed.

(** C4 (counterexample): two identical add_file calls of /a over
    [0, 0x100) with a NULL (wildcard) asid, to an image that has /a at that
    range in address spaces cr3=1 and cr3=2 (no two of its entries clash),
    both succeed and leave two entries for the region, both matching the
    wildcard asid. *)
Lemma add_twice_two_entries :
  let '(e1, img1, w1) :=
    pt_image_add_file env_ok (fst cr3_pair_state) (snd cr3_pair_state) "/a" 0 0x100 None 0 in
  let '(e2, img2, _) := pt_image_add_file env_ok img1 w1 "/a" 0 0x100 None 0 in
  no_clashes (sections (fst cr3_pair_state)) = true /\ e1 = 0 /\ e2 = 0 /\ img2 = img1 /\
  map entry_view (sections img2) = [("/a", 0, 0x100, 0); ("/a", 0, 0x100, 0)] /\
  List.length (filter (fun y => elem_matches pt_asid_init y && overlaps 0 0x100 y)
                      (sections img2)) = 2%nat.
Proof. vm_compute. repeat split. Qed.

(** C6 (counterexample): with a cache of one section and three resident
    sections whose two oldest fail to unmap, first with Internal and then
    with NoMem, pruning returns NoMem, the later of the two errors. *)
Lemma prune_returns_last_error :
  let '(_, img, w) := pt_image_add_file env_unmap_fails (pt_image_init None) w0 "/s1" 0 16 asid0 0 in
  let '(_, img, w) := pt_image_add_file env_unmap_fails img w "/s2" 0 16 asid0 16 in
  let '(_, img, w) := pt_image_add_file env_unmap_fails img w "/s3" 0 16 asid0 32 in
  let '(_, _, img, w) := pt_image_read env_unmap_fails img w [] 4 asid0 0 in
  let '(_, _, img, w) := pt_image_read env_unmap_fails img w [] 4 asid0 16 in
  let '(_, _, img, w) := pt_image_read env_unmap_fails img w [] 4 asid0 32 in
  let img := set_cache img 1 in
  let '(status, _, _) := pt_image_prune_cache env_unmap_fails img w in
  pt_image_prune_unmaps env_unmap_fails img w = [- pte_internal; - pte_nomem] /\
  status = - pte_nomem /\ status <> - pte_internal.
Proof. vm_compute. repeat split. discriminate. Qed.

(** C7 (counterexample): removing with a NULL asid from an image with one
    element returns Internal, neither success nor BadImage. *)
Lemma remove_null_asid_internal :
  let '(_, img, w) := pt_image_add_file env_ok (pt_image_init None) w0 "/a" 0 16 asid0 0 in
  let '(e, img', _) := pt_image_remove env_ok img w (mk_section 1 "/a" 0 16) None 0 in
  e = - pte_internal /\ e <> 0 /\ e <> - pte_bad_image /\ img' = img.
Proof. vm_compute. repeat split; discriminate. Qed.

(** C8 (counterexample): when mapping the only section fails, a read at an
    address no section covers returns the mapping error; the callback,
    which would have read one byte, is not consulted. *)
Lemma read_map_error_skips_callback :
  let '(_, img, w) := pt_image_add_file env_map_fails (pt_image_init None) w0 "/a" 0 16 asid0 0 in
  let img := set_callback img (Some cb_ab) 0 in
  let buf := [Byte.x00; Byte.x00; Byte.x00; Byte.x00] in
  let '(r, buf', _, _) := pt_image_read env_map_fails img w buf 4 asid0 0x1234 in
  r = - pte_nomem /\ (r, buf') <> cb_ab buf 4 (asid_cr3 1) 0x1234 0.
Proof. vm_compute. split; [reflexivity | discriminate]. Qed.

(** C9 (counterexample): /a at [0, 0x100) in cr3=1; adding /a at the same
    address with the same size but another file offset, in cr3=2, succeeds
    and inserts the new section next to the old one. *)
Lemma add_other_offset_other_asid_inserts :
  let '(_, img, w) := pt_image_add_file env_ok (pt_image_init None) w0 "/a" 0 0x100 asid0 0 in
  let '(e, img', _) := pt_image_add_file env_ok img w "/a" 0x100 0x100 asid1 0 in
  e = 0 /\ map entry_view (sections img') = [("/a", 0, 0x100, 0); ("/a", 0x100, 0x100, 0)].
Proof. vm_compute. split; reflexivity. Qed.

(** C10 (counterexample): adding with a NULL asid to an image that has an
    element is rejected with Internal and creates no element. *)
Lemma add_null_asid_rejected :
  let '(_, img, w) := pt_image_add_file env_ok (pt_image_init None) w0 "/a" 0 16 asid0 0 in
  let '(e, img', _) := pt_image_add env_ok img w (mk_section 5 "/b" 0 16) None 0x40 in
  e = - pte_internal /\ img' = img.
Proof. vm_compute. split; reflexivity. Qed.

(** * General properties *)

Close Scope string_scope.

Lemma mask_keep_none {A} (l : list A) : mask_keep (repeat false (List.length l)) l = l.
Proof. induction l; simpl; congruence. Qed.

Lemma mask_take_none {A} (l : list A) : mask_take (repeat false (List.length l)) l = [].
Proof. induction l; simpl; auto. Qed.

(** Case on the first [if] or [match] in a hypothesis. *)
Ltac break_in H :=
  match type of H with
  | context[match ?x with _ => _ end] => destruct x eqn:?
  end.

(** ** Rolling back a failed add *)

(** When the overlap loop breaks, the image list is the elements it has not
    detached, in order, and [removed] has gained the detached ones, last
    detached first, with their mapped flag cleared. *)
Lemma add_loop_break E w section asid b e kept rest removed next errcode w' cur
    removed' next' :
  pt_image_add_loop E w section asid b e kept rest removed next
    = ALBreak errcode w' cur removed' next' ->
  exists m, List.length m = List.length rest /\ cur = kept ++ mask_keep m rest /\
    removed' = rev (map (fun l => set_flag l false) (mask_take m rest)) ++ removed.
Proof.
  revert w kept removed next.
  induction rest as [|current rest' IH]; intros w kept removed next H; simpl in H.
  - discriminate.
  - repeat break_in H.
    all: try discriminate.
    all: try first
      [ injection H as <- <- <- <- <-;
        first
          [ exists (repeat false (List.length (current :: rest')));
            rewrite mask_keep_none, mask_take_none, repeat_length; solve [auto]
          | exists (true :: repeat false (List.length rest')); simpl;
            rewrite mask_keep_none, mask_take_none, repeat_length; solve [auto] ]
      | apply IH in H; destruct H as (m & Hl & Hc & Hr); subst;
        first
          [ exists (false :: m); simpl; rewrite <- app_assoc; solve [auto]
          | exists (true :: m); simpl; rewrite <- app_assoc; simpl; solve [auto] ] ].
Qed.

(** C1 (amended): when [pt_image_add] fails, the image has lost no element
    and gained none.  The elements the call did not detach keep their order
    at the front; the overlapping elements it had detached follow at the
    tail, in reverse list order and with their mapped flag cleared.  Name,
    callback, callback context and cache size are unchanged. *)
Theorem pt_image_add_error_rollback E img w section asid vaddr errcode img' w' :
  pt_image_add E img w section asid vaddr = (errcode, img', w') ->
  errcode < 0 ->
  exists m, List.length m = List.length (sections img) /\
    sections img' = mask_keep m (sections img)
                    ++ rev (map (fun l => set_flag l false) (mask_take m (sections img))) /\
    img_name img' = img_name img /\ readmem_callback img' = readmem_callback img /\
    readmem_context img' = readmem_context img /\ cache img' = cache img.
Proof.
  unfold pt_image_add. intros H Herr.
  destruct (pt_mk_section_list E w section asid vaddr) as [[n|] w1].
  - destruct (pt_image_add_loop E w1 section asid vaddr _ [] (sections img) [] [n])
      as [w2 | e w2 cur removed next | w2 kept removed next] eqn:Hloop.
    + injection H as <- _ _. lia.
    + injection H as <- <- _.
      apply add_loop_break in Hloop as (m & Hl & Hc & Hr); subst.
      exists m. rewrite app_nil_r. simpl. auto 7.
    + injection H as <- _ _. lia.
  - injection H as <- <- _.
    exists (repeat false (List.length (sections img))).
    rewrite mask_keep_none, mask_take_none, repeat_length. simpl.
    rewrite app_nil_r. auto 7.
Qed.

(** Witness of C1: the rollback of the C1 counterexample. *)
Lemma pt_image_add_error_rollback_witness :
  let '(img, w) := c1_state in
  let '(e, img', _) := pt_image_add env_ok img w (mk_section 3 "/a"%string 0 0x100) (Some pt_asid_init) 0 in
  e < 0 /\
  exists m, List.length m = List.length (sections img) /\
    sections img' = mask_keep m (sections img)
                    ++ rev (map (fun l => set_flag l false) (mask_take m (sections img))) /\
    img_name img' = img_name img /\ readmem_callback img' = readmem_callback img /\
    readmem_context img' = readmem_context img /\ cache img' = cache img.
Proof.
  destruct c1_state as [img w] eqn:Hst.
  destruct (pt_image_add env_ok img w (mk_section 3 "/a"%string 0 0x100) (Some pt_asid_init) 0)
    as [[e img'] w'] eqn:Hadd.
  assert (He : e < 0).
  { vm_compute in Hst. injection Hst as <- <-. vm_compute in Hadd.
    injection Hadd as <- _ _. reflexivity. }
  split; [exact He |].
  exact (pt_image_add_error_rollback env_ok img w _ _ _ e img' w' Hadd He).
Defined.

(** ** Asid matching against a present asid *)

Lemma asid_match_some l r : pt_asid_match l (Some r) = 0 \/ pt_asid_match l (Some r) = 1.
Proof.
  unfold pt_asid_match.
  destruct (_ && _ && _); [auto |].
  destruct (_ && _ && _); auto.
Qed.

Lemma asid_match_refl a : pt_asid_match a (Some a) = 1.
Proof.
  unfold pt_asid_match. rewrite !Z.eqb_refl. reflexivity.
Qed.

(** ** Removing *)

Lemma remove_loop_spec E w section a vaddr prefix rest errcode l w' :
  pt_image_remove_loop E w section (Some a) vaddr prefix rest = (errcode, l, w') ->
  let hit x := pt_msec_matches_asid (sl_section x) (Some a) = 1
               /\ sec_id (msec_section (sl_section x)) = sec_id section
               /\ msec_vaddr (sl_section x) = vaddr in
  (exists pre x post, rest = pre ++ x :: post /\ Forall (fun y => ~ hit y) pre /\ hit x
                      /\ errcode = 0 /\ l = prefix ++ pre ++ post)
  \/ (Forall (fun y => ~ hit y) rest /\ errcode = - pte_bad_image /\ l = prefix ++ rest).
Proof.
  intros H hit. revert prefix H.
  induction rest as [|x rest IH]; intros prefix H; cbn [pt_image_remove_loop] in H.
  - injection H as <- <- _. right. rewrite app_nil_r. auto.
  - (* [x] is stepped over when it is not a hit. *)
    assert (Hstep : forall pre y post,
        ~ hit x -> rest = pre ++ y :: post -> Forall (fun z => ~ hit z) pre ->
        x :: rest = (x :: pre) ++ y :: post /\ Forall (fun z => ~ hit z) (x :: pre)).
    { intros pre y post Hx -> Hpre. split; [reflexivity | constructor; auto]. }
    assert (Hstep' : ~ hit x -> Forall (fun z => ~ hit z) rest ->
                     Forall (fun z => ~ hit z) (x :: rest)).
    { intros Hx Hr. constructor; auto. }
    unfold pt_msec_matches_asid in H.
    destruct (asid_match_some (msec_asid (sl_section x)) a) as [Hm | Hm]; rewrite Hm in H;
      simpl in H.
    + assert (Hx : ~ hit x).
      { intros (Hx & _). unfold pt_msec_matches_asid in Hx. congruence. }
      apply IH in H as [(pre & y & post & Hr & Hpre & Hy & He & Hl) | (Hrest & He & Hl)].
      * left. destruct (Hstep pre y post Hx Hr Hpre) as [Hr' Hpre'].
        exists (x :: pre), y, post. rewrite Hl, <- app_assoc. auto.
      * right. rewrite Hl, <- app_assoc. auto.
    + destruct (Nat.eqb _ _ && _) eqn:Hhit.
      * injection H as <- <- _.
        apply andb_true_iff in Hhit as [Hid Hv].
        left. exists [], x, rest. split; [reflexivity |]. split; [constructor |].
        split; [| auto].
        split; [exact Hm |]. split; [apply Nat.eqb_eq | apply Z.eqb_eq]; auto.
      * assert (Hx : ~ hit x).
        { intros (_ & Hid & Hv). rewrite Hid, Hv, Nat.eqb_refl, Z.eqb_refl in Hhit.
          discriminate. }
        apply IH in H as [(pre & y & post & Hr & Hpre & Hy & He & Hl) | (Hrest & He & Hl)].
        -- left. destruct (Hstep pre y post Hx Hr Hpre) as [Hr' Hpre'].
           exists (x :: pre), y, post. rewrite Hl, <- app_assoc. auto.
        -- right. rewrite Hl, <- app_assoc. auto.
Qed.

(** C7 (amended): for a present (non-NULL) asid, [pt_image_remove] removes
    exactly the first element, in list order, whose section is [section],
    whose address is [vaddr] and whose asid matches, and returns success;
    when no element qualifies it returns BadImage and leaves the image as
    it was.  At most one element is removed.  With a NULL asid the asid
    match of the first element fails: remove returns Internal, or BadImage
    on an empty image, and changes neither the image nor any section. *)
Theorem pt_image_remove_first E img w section a vaddr :
  let hit x := pt_msec_matches_asid (sl_section x) (Some a) = 1
               /\ sec_id (msec_section (sl_section x)) = sec_id section
               /\ msec_vaddr (sl_section x) = vaddr in
  (let '(errcode, img', _) := pt_image_remove E img w section (Some a) vaddr in
   (exists pre x post, sections img = pre ++ x :: post /\ Forall (fun y => ~ hit y) pre
                       /\ hit x /\ errcode = 0 /\ sections img' = pre ++ post)
   \/ (Forall (fun y => ~ hit y) (sections img) /\ errcode = - pte_bad_image /\ img' = img))
  /\ (let '(errcode, img', w') := pt_image_remove E img w section None vaddr in
      img' = img /\ w' = w
      /\ errcode = match sections img with
                   | [] => - pte_bad_image
                   | _ :: _ => - pte_internal
                   end).
Proof.
  intros hit. split.
  - unfold pt_image_remove.
    destruct (pt_image_remove_loop E w section (Some a) vaddr [] (sections img))
      as [[errcode l] w'] eqn:H.
    apply remove_loop_spec in H as [(pre & x & post & Hs & Hpre & Hx & He & Hl) | (Hs & He & Hl)].
    + left. exists pre, x, post. simpl in Hl. subst. auto.
    + right. simpl in Hl. subst. destruct img. auto.
  - unfold pt_image_remove. destruct img as [n l cb ctx c m]. cbn [sections].
    destruct l as [|x l]; repeat split.
Qed.

(** ** The overlap loop of [pt_image_add] *)

(** Elements the loop steps over move to [kept] and change nothing else. *)
Lemma add_loop_skips E w section asid b e kept pre rest removed next :
  Forall (add_skips asid b e) pre ->
  pt_image_add_loop E w section asid b e kept (pre ++ rest) removed next
  = pt_image_add_loop E w section asid b e (kept ++ pre) rest removed next.
Proof.
  intros Hpre. revert kept.
  induction Hpre as [|x pre Hx Hpre IH]; intros kept.
  - rewrite app_nil_r. reflexivity.
  - simpl app at 1. cbn [pt_image_add_loop].
    destruct Hx as [Hm | (Hm & Hov)]; rewrite Hm; simpl.
    + rewrite IH, <- app_assoc. reflexivity.
    + replace ((e <=? pt_msec_begin (sl_section x)) || (pt_msec_end (sl_section x) <=? b))
        with true.
      * rewrite IH, <- app_assoc. reflexivity.
      * symmetry. apply orb_true_iff.
        destruct Hov; [left | right]; apply Z.leb_le; assumption.
Qed.

(** The identical-overlap shortcut: the first element that matches and
    overlaps covers exactly the added range and has the added section's
    filename. *)
Lemma add_loop_dedup E w section asid b e kept x post n :
  pt_msec_matches_asid (sl_section x) asid = 1 ->
  pt_msec_begin (sl_section x) = b ->
  pt_msec_end (sl_section x) = e ->
  b < e ->
  sec_filename (msec_section (sl_section x)) = sec_filename section ->
  pt_image_add_loop E w section asid b e kept (x :: post) [] [n]
  = ALDedup (pt_section_list_free E w n).
Proof.
  intros Hm Hb He Hlt Hf. cbn [pt_image_add_loop].
  rewrite Hm, Hb, He. simpl.
  replace ((e <=? b) || (e <=? b)) with false
    by (symmetry; apply orb_false_iff; split; apply Z.leb_gt; exact Hlt).
  rewrite !Z.eqb_refl. unfold pt_section_filename. rewrite Hf, String.eqb_refl.
  reflexivity.
Qed.

(** ** Adding with a NULL asid *)

(** C10 (amended): [pt_image_add] does not check the asid itself.  On an
    empty image, an add with a NULL asid succeeds (when its list element can
    be allocated) and the image then holds exactly one element, for the
    section at [vaddr], not mapped.  On an image with an element, the asid
    match of the first element rejects the NULL asid: add returns Internal
    and leaves the image as it was. *)
Theorem pt_image_add_null_asid E img w section vaddr :
  malloc_fails E w = false ->
  let '(errcode, img', _) := pt_image_add E img w section None vaddr in
  (sections img = [] ->
     errcode = 0 /\ sections img' = [mk_sl (pt_msec_init section None vaddr) false])
  /\ (sections img <> [] -> errcode = - pte_internal /\ img' = img).
Proof.
  intros Hmalloc. unfold pt_image_add, pt_mk_section_list. rewrite Hmalloc.
  destruct img as [name secs cb ctx c m]. simpl.
  destruct secs as [|x rest]; simpl.
  - split; [auto | intros []; reflexivity].
  - split; [discriminate |]. intros _. rewrite app_nil_r. auto.
Qed.

(** Witness of C10: a NULL-asid add to an empty image. *)
Lemma pt_image_add_null_asid_witness :
  malloc_fails env_ok w0 = false /\
  let '(errcode, img', _) :=
    pt_image_add env_ok (pt_image_init None) w0 (mk_section 1 "/b"%string 0 16) None 0x40 in
  (sections (pt_image_init None) = [] ->
     errcode = 0
     /\ sections img' = [mk_sl (pt_msec_init (mk_section 1 "/b"%string 0 16) None 0x40) false])
  /\ (sections (pt_image_init None) <> [] -> errcode = - pte_internal /\ img' = pt_image_init None).
Proof.
  split; [reflexivity |].
  apply pt_image_add_null_asid. reflexivity.
Defined.

(** ** The identical-overlap shortcut ignores the file offset *)

(** C9 (amended): let [x] be the first element, in list order, whose asid
    matches the (non-NULL) asid of the add and whose range overlaps the
    added range.  If [x] starts at [vaddr], ends where the added section
    ends (a non-empty range) and has the added section's filename, then the
    add succeeds and leaves the image as it was, whatever the file offsets
    of the two sections (provided the new list element can be allocated). *)
Theorem pt_image_add_dedup_any_offset E img w section a vaddr pre x post :
  sections img = pre ++ x :: post ->
  Forall (add_skips (Some a) vaddr (u64 (vaddr + pt_section_size section))) pre ->
  pt_msec_matches_asid (sl_section x) (Some a) = 1 ->
  msec_vaddr (sl_section x) = vaddr ->
  pt_msec_end (sl_section x) = u64 (vaddr + pt_section_size section) ->
  vaddr < pt_msec_end (sl_section x) ->
  sec_filename (msec_section (sl_section x)) = sec_filename section ->
  malloc_fails E w = false ->
  let '(errcode, img', _) := pt_image_add E img w section (Some a) vaddr in
  errcode = 0 /\ img' = img.
Proof.
  intros Hs Hpre Hm Hv He Hlt Hf Hmalloc.
  unfold pt_image_add, pt_mk_section_list. rewrite Hmalloc. simpl.
  rewrite Hs, add_loop_skips by exact Hpre.
  rewrite add_loop_dedup; auto; congruence.
Qed.

(** Witness of C9: /a at the same place again, with another file offset. *)
Lemma pt_image_add_dedup_any_offset_witness :
  let '(img, w) := c9_state in
  let '(errcode, img', _) :=
    pt_image_add env_ok img w (mk_section 2 "/a"%string 0x100 0x100) asid0 0 in
  errcode = 0 /\ img' = img.
Proof.
  destruct c9_state as [img w] eqn:Hst.
  vm_compute in Hst. injection Hst as <- <-.
  apply (pt_image_add_dedup_any_offset env_ok _ _ _ (asid_cr3 1) 0 []
           (mk_sl (mk_msec (mk_section 1 "/a"%string 0 0x100) (asid_cr3 1) 0) false) []).
  all: try reflexivity.
  constructor.
Defined.

(** ** Cache pruning *)

Lemma u16_add_idemp_l x y : u16 (u16 x + y) = u16 (x + y).
Proof. unfold u16. apply Zplus_mod_idemp_l. Qed.

(** The pass keeps the elements in order, only clearing flags; the count it
    ends with is the count it started with plus the flags set at the end,
    modulo 2^16; its status is the last failed unmap, or the status it
    started with when no unmap failed. *)
Lemma prune_loop_spec E w c st m l :
  m = u16 m ->
  let '(l', st', m', _, log) := pt_image_prune_loop E w c st m l in
  map sl_section l' = map sl_section l
  /\ m' = u16 (m + count_mapped l')
  /\ st' = (if last_error log <? 0 then last_error log else st).
Proof.
  revert w st m. induction l as [|x l IH]; intros w st m Hm; cbn [pt_image_prune_loop].
  - rewrite Z.add_0_r. auto.
  - assert (Hrange : forall y, u16 (u16 y) = u16 y) by (intros; apply Zmod_mod).
    destruct (sl_mapped x) eqn:Hx; simpl negb; cbv iota.
    + destruct (u16 (m + 1) <=? c).
      * specialize (IH w st (u16 (m + 1)) (eq_sym (Hrange _))).
        destruct (pt_image_prune_loop E w c st (u16 (m + 1)) l)
          as [[[[l' st'] m'] w'] log].
        destruct IH as (IH1 & IH2 & IH3). simpl. rewrite Hx, IH1.
        split; [reflexivity | split; [| exact IH3]].
        rewrite IH2, u16_add_idemp_l. f_equal. lia.
      * destruct (pt_section_unmap E w (msec_section (sl_section x))) as [e w1].
        destruct (e <? 0) eqn:He.
        -- specialize (IH w1 e (u16 (m + 1)) (eq_sym (Hrange _))).
           destruct (pt_image_prune_loop E w1 c e (u16 (m + 1)) l)
             as [[[[l' st'] m'] w'] log].
           destruct IH as (IH1 & IH2 & IH3). simpl. rewrite Hx, IH1.
           split; [reflexivity | split].
           ++ rewrite IH2, u16_add_idemp_l. f_equal. lia.
           ++ rewrite IH3. destruct (last_error log <? 0) eqn:Hl; simpl; rewrite ?Hl.
              ** reflexivity.
              ** rewrite He. simpl. rewrite He. reflexivity.
        -- specialize (IH w1 st (u16 (u16 (m + 1) - 1)) (eq_sym (Hrange _))).
           destruct (pt_image_prune_loop E w1 c st (u16 (u16 (m + 1) - 1)) l)
             as [[[[l' st'] m'] w'] log].
           destruct IH as (IH1 & IH2 & IH3). simpl. rewrite IH1.
           split; [reflexivity | split].
           ++ rewrite IH2, u16_add_idemp_l.
              replace (u16 (m + 1) - 1 + count_mapped l')
                with (u16 (m + 1) + (count_mapped l' - 1)) by lia.
              rewrite u16_add_idemp_l. f_equal. simpl. lia.
           ++ rewrite IH3. destruct (last_error log <? 0) eqn:Hl; simpl; rewrite ?Hl.
              ** reflexivity.
              ** rewrite He. reflexivity.
    + specialize (IH w st m Hm).
      destruct (pt_image_prune_loop E w c st m l) as [[[[l' st'] m'] w'] log].
      destruct IH as (IH1 & IH2 & IH3). simpl. rewrite Hx, IH1. auto.
Qed.

Lemma count_mapped_nonneg l : 0 <= count_mapped l.
Proof. induction l as [|x l IH]; cbn [count_mapped]; [lia | destruct (sl_mapped x); lia]. Qed.

Lemma last_error_nonpos l : last_error l <= 0.
Proof.
  induction l as [|e l IH]; simpl; [lia |].
  destruct (last_error l <? 0) eqn:H1; [lia |].
  destruct (e <? 0) eqn:H2; [apply Z.ltb_lt in H2; lia | lia].
Qed.

(** Which elements a pruning pass unmaps: with [m] elements counted so far,
    [Z.max 0 (c - m)] more may stay mapped; each later mapped element gets
    one unmap call, in list order. *)
Lemma prune_loop_flags E w c st m l :
  0 <= m -> m + count_mapped l < 2 ^ 16 ->
  let '(l', _, _, _, log) := pt_image_prune_loop E w c st m l in
  map sl_mapped l' = prune_flags (Z.max 0 (c - m)) l log
  /\ Z.of_nat (List.length log) = Z.max 0 (count_mapped l - Z.max 0 (c - m)).
Proof.
  revert w st m. induction l as [|x l IH]; intros w st m Hm Hb; cbn [pt_image_prune_loop].
  - cbn [map prune_flags count_mapped List.length]. split; [reflexivity | lia].
  - pose proof (count_mapped_nonneg l).
    cbn [count_mapped] in Hb |- *.
    destruct (sl_mapped x) eqn:Hx; cbn [negb prune_flags]; rewrite Hx.
    + assert (Hu : u16 (m + 1) = m + 1) by (unfold u16; apply Z.mod_small; lia).
      rewrite Hu.
      destruct (m + 1 <=? c) eqn:Hc.
      * apply Z.leb_le in Hc.
        specialize (IH w st (m + 1) ltac:(lia) ltac:(lia)).
        destruct (pt_image_prune_loop E w c st (m + 1) l) as [[[[l' st'] m'] w'] log].
        destruct IH as [IH1 IH2].
        replace (0 <? Z.max 0 (c - m)) with true by (symmetry; apply Z.ltb_lt; lia).
        replace (Z.max 0 (c - m) - 1) with (Z.max 0 (c - (m + 1))) by lia.
        cbn [map sl_mapped]. rewrite Hx, IH1. split; [reflexivity | lia].
      * apply Z.leb_gt in Hc.
        replace (Z.max 0 (c - m)) with 0 by lia. cbn [Z.ltb Z.compare].
        destruct (pt_section_unmap E w (msec_section (sl_section x))) as [e w1].
        destruct (e <? 0) eqn:He.
        -- specialize (IH w1 e (m + 1) ltac:(lia) ltac:(lia)).
           destruct (pt_image_prune_loop E w1 c e (m + 1) l) as [[[[l' st'] m'] w'] log].
           destruct IH as [IH1 IH2].
           replace (Z.max 0 (c - (m + 1))) with 0 in IH1, IH2 by lia.
           cbn [map sl_mapped List.length]. rewrite Hx, He, IH1.
           split; [reflexivity | lia].
        -- replace (u16 (m + 1 - 1)) with m by (unfold u16; rewrite Z.mod_small; lia).
           specialize (IH w1 st m ltac:(lia) ltac:(lia)).
           destruct (pt_image_prune_loop E w1 c st m l) as [[[[l' st'] m'] w'] log].
           destruct IH as [IH1 IH2].
           replace (Z.max 0 (c - m)) with 0 in IH1, IH2 by lia.
           cbn [map sl_mapped set_flag List.length]. rewrite He, IH1.
           split; [reflexivity | lia].
    + specialize (IH w st m Hm ltac:(lia)).
      destruct (pt_image_prune_loop E w c st m l) as [[[[l' st'] m'] w'] log].
      destruct IH as [IH1 IH2].
      cbn [map sl_mapped]. rewrite Hx, IH1. split; [reflexivity | lia].
Qed.

(** C6 (amended): a pruning pass visits every element and keeps the
    elements and their order; it sets the residency counter to the number
    of elements still flagged mapped (modulo 2^16) and returns the status of
    the LAST unmap call that failed, or 0 when none failed.  With fewer than
    2^16 mapped elements, the first [cache] elements flagged mapped stay
    mapped and every later one gets one unmap call, in list order, and is
    unmapped unless that call fails. *)
Theorem pt_image_prune_cache_spec E img w :
  let '(status, img', _) := pt_image_prune_cache E img w in
  map sl_section (sections img') = map sl_section (sections img)
  /\ mapped img' = u16 (count_mapped (sections img'))
  /\ status = last_error (pt_image_prune_unmaps E img w)
  /\ (count_mapped (sections img) < 2 ^ 16 ->
      map sl_mapped (sections img')
      = prune_flags (Z.max 0 (cache img)) (sections img) (pt_image_prune_unmaps E img w)
      /\ Z.of_nat (List.length (pt_image_prune_unmaps E img w))
         = Z.max 0 (count_mapped (sections img) - Z.max 0 (cache img))).
Proof.
  unfold pt_image_prune_cache, pt_image_prune_unmaps.
  pose proof (prune_loop_spec E w (cache img) 0 0 (sections img) eq_refl) as H.
  pose proof (prune_loop_flags E w (cache img) 0 0 (sections img)) as Hf.
  destruct (pt_image_prune_loop E w (cache img) 0 0 (sections img))
    as [[[[l st] m] w'] log].
  destruct H as (H1 & H2 & H3). simpl.
  split; [exact H1 | split; [exact H2 | split]].
  - rewrite H3. destruct (last_error log <? 0) eqn:Hl; [reflexivity |].
    apply Z.ltb_ge in Hl. pose proof (last_error_nonpos log). lia.
  - intros Hb. rewrite Z.sub_0_r in Hf. apply Hf; lia.
Qed.

(** Witness of C6: three resident sections and a cache of one; the two
    later ones get an unmap call each, and the first of these (address 2)
    fails. *)
Lemma pt_image_prune_cache_spec_witness :
  let '(status, img', _) := pt_image_prune_cache env_unmap2_fails prune_image prune_world in
  map sl_mapped (sections img') = [true; true; false]
  /\ pt_image_prune_unmaps env_unmap2_fails prune_image prune_world = [- pte_nomem; 0]
  /\ status = - pte_nomem.
Proof.
  pose proof (pt_image_prune_cache_spec env_unmap2_fails prune_image prune_world) as H.
  destruct (pt_image_prune_cache env_unmap2_fails prune_image prune_world)
    as [[status img'] w'] eqn:Hp.
  destruct H as (_ & _ & Hs & Hf).
  destruct (Hf ltac:(vm_compute; reflexivity)) as [Hm _].
  split; [| split].
  - rewrite Hm. vm_compute. reflexivity.
  - vm_compute. reflexivity.
  - rewrite Hs. vm_compute. reflexivity.
Defined.

(** ** Reading falls back on the callback *)

(** A failed read leaves the buffer alone. *)
Lemma read_mapped_fail_buf E w msec buf size asid addr :
  fst (pt_msec_read_mapped E w msec buf size asid addr) < 0 ->
  snd (pt_msec_read_mapped E w msec buf size asid addr) = buf.
Proof.
  unfold pt_msec_read_mapped, pt_section_read.
  destruct (pt_msec_matches_asid msec asid <? 0); [reflexivity |].
  destruct (pt_msec_matches_asid msec asid =? 0); [reflexivity |].
  destruct (_ || _); [reflexivity |].
  destruct (_ <=? 0); [reflexivity |].
  destruct (_ || _); [reflexivity |].
  simpl. intros Hn. replace (Z.to_nat _) with 0%nat by lia. reflexivity.
Qed.

Lemma map_unmap_nonneg E w s :
  (forall k, 0 <= w_mcount w k) ->
  map_fails E w s = None -> unmap_fails E (snd (pt_section_map E w s)) s = None ->
  fst (pt_section_unmap E (snd (pt_section_map E w s)) s) = 0
  /\ forall k, 0 <= w_mcount (snd (pt_section_unmap E (snd (pt_section_map E w s)) s)) k.
Proof.
  intros Hw Hm Hu. unfold pt_section_map in *. rewrite Hm in *.
  unfold pt_section_unmap. rewrite Hu.
  cbn [snd fst w_mcount tick set_mcount]. unfold upd. rewrite Nat.eqb_refl.
  replace (w_mcount w (sec_id s) + 1 <=? 0) with false
    by (symmetry; apply Z.leb_gt; specialize (Hw (sec_id s)); lia).
  split; [reflexivity |].
  intros k. cbn [snd w_mcount tick set_mcount]. unfold upd.
  destruct (Nat.eqb k (sec_id s)) eqn:Hk.
  - specialize (Hw (sec_id s)). lia.
  - apply Hw.
Qed.

(** What a read returns when no element of [rest] can serve it: the
    callback's answer when no map or unmap call fails, and otherwise the
    first failing call's error, with the buffer left alone. *)
Definition fallback_outcome (E : env) (img : pt_image) (w : world) (buf : buffer)
    (size : Z) (a : pt_asid) (addr : Z) (rest : list pt_section_list)
    (status : Z) (buf' : buffer) : Prop :=
  (fallback_calls_ok E w rest ->
   (status, buf') = pt_image_read_callback img buf size a addr)
  /\ (forall pre x post e,
        rest = pre ++ x :: post -> fallback_calls_ok E w pre ->
        sl_mapped x = false -> e < 0 ->
        (map_fails E (fallback_world E w pre) (sl_sec x) = Some e
         \/ (map_fails E (fallback_world E w pre) (sl_sec x) = None
             /\ unmap_fails E (snd (pt_section_map E (fallback_world E w pre) (sl_sec x)))
                  (sl_sec x) = Some e)) ->
        status = e /\ buf' = buf).

Lemma read_cold_fallback E img w buf size a addr prefix rest :
  (forall k, 0 <= w_mcount w k) ->
  (forall l, In l rest -> forall w',
     fst (pt_msec_read_mapped E w' (sl_section l) buf size (Some a) addr) < 0) ->
  let '(status, buf', _, _) := pt_image_read_cold E img w buf size a addr prefix rest in
  fallback_outcome E img w buf size a addr rest status buf'.
Proof.
  revert w prefix. induction rest as [|x rest IH]; intros w prefix Hw Hfail;
    cbn [pt_image_read_cold].
  - destruct (pt_image_read_callback img buf size a addr) as [st b] eqn:Hc.
    split; [intros _; symmetry; exact Hc |].
    intros pre x post e Hl. destruct pre; discriminate.
  - assert (Hx : forall w', fst (pt_msec_read_mapped E w' (sl_section x) buf size (Some a) addr) < 0)
      by (apply Hfail; left; reflexivity).
    assert (Hrest : forall l, In l rest -> forall w',
               fst (pt_msec_read_mapped E w' (sl_section l) buf size (Some a) addr) < 0)
      by (intros l Hl; apply Hfail; right; exact Hl).
    destruct (sl_mapped x) eqn:Hm.
    + cbn [fst snd].
      pose proof (read_mapped_fail_buf E w (sl_section x) buf size (Some a) addr (Hx w)) as Hb.
      destruct (pt_msec_read_mapped E w (sl_section x) buf size (Some a) addr)
        as [st b] eqn:Hr.
      specialize (Hx w). rewrite Hr in Hx. simpl in Hx, Hb. subst b.
      apply Z.ltb_lt in Hx. rewrite Hx. cbn [Z.ltb Z.compare].
      specialize (IH w (prefix ++ [x]) Hw Hrest).
      destruct (pt_image_read_cold E img w buf size a addr (prefix ++ [x]) rest)
        as [[[st' b'] img'] w'].
      destruct IH as [IH1 IH2]. split.
      * intros Hok. apply IH1. cbn [fallback_calls_ok] in Hok. rewrite Hm in Hok. exact Hok.
      * intros [|y pre] x' post e Hl Hok Hx' He Hcall.
        -- injection Hl as -> _. congruence.
        -- injection Hl as -> Hl. cbn [fallback_calls_ok fallback_world] in Hok, Hcall.
           rewrite Hm in Hok, Hcall. exact (IH2 pre x' post e Hl Hok Hx' He Hcall).
    + set (s := msec_section (sl_section x)).
      assert (Hs : sl_sec x = s) by reflexivity.
      cbv iota.
      destruct (pt_section_map E w s) as [e1 w1] eqn:Hmap.
      destruct (map_fails E w s) as [em|] eqn:Hmf.
      * (* the map call fails: its status is returned *)
        assert (e1 = em) as ->
          by (unfold pt_section_map in Hmap; rewrite Hmf in Hmap; injection Hmap; auto).
        lazymatch goal with |- match ?X with _ => _ end =>
          destruct X as [[[st b] i] w'] eqn:Hrun end.
        split.
        -- intros Hok. cbn [fallback_calls_ok] in Hok. rewrite Hm, Hs in Hok.
           cbv iota beta in Hok. destruct Hok as [Hok _]. congruence.
        -- intros [|y pre] x' post e Hl Hok Hx' He Hcall.
           ++ injection Hl as <- _. cbn [fallback_world] in Hcall. rewrite Hs in Hcall.
              destruct Hcall as [Hc | [Hc _]]; rewrite Hmf in Hc; [| discriminate].
              injection Hc as ->. apply Z.ltb_lt in He. rewrite He in Hrun.
              injection Hrun as <- <- _ _. split; reflexivity.
           ++ injection Hl as <- _. cbn [fallback_calls_ok] in Hok. rewrite Hm, Hs in Hok.
              cbv iota beta in Hok. destruct Hok as [Hok _]. congruence.
      * assert (e1 = 0) as ->
          by (unfold pt_section_map in Hmap; rewrite Hmf in Hmap; injection Hmap; auto).
        change (0 <? 0) with false. cbv iota beta.
        pose proof (read_mapped_fail_buf E w1 (sl_section x) buf size (Some a) addr (Hx w1)) as Hb.
        destruct (pt_msec_read_mapped E w1 (sl_section x) buf size (Some a) addr)
          as [st b] eqn:Hr.
        pose proof (Hx w1) as Hx1. rewrite Hr in Hx1. simpl in Hx1, Hb. subst b.
        apply Z.ltb_lt in Hx1. rewrite Hx1.
        destruct (pt_section_unmap E w1 s) as [e2 w2] eqn:Hun.
        destruct (unmap_fails E w1 s) as [eu|] eqn:Huf.
        -- (* the speculative unmap fails: its status is returned *)
           assert (e2 = eu) as ->
             by (unfold pt_section_unmap in Hun; rewrite Huf in Hun; injection Hun; auto).
           lazymatch goal with |- match ?X with _ => _ end =>
             destruct X as [[[st' b'] i] w'] eqn:Hrun end.
           split.
           ++ intros Hok. cbn [fallback_calls_ok] in Hok. rewrite Hm, Hs, Hmap in Hok.
              cbv iota beta in Hok. cbn [snd] in Hok. destruct Hok as (_ & Hok & _). congruence.
           ++ intros [|y pre] x' post e Hl Hok Hx' He Hcall.
              ** injection Hl as <- _. cbn [fallback_world] in Hcall.
                 rewrite Hs, Hmap in Hcall. cbn [snd] in Hcall.
                 destruct Hcall as [Hc | [_ Hc]]; [congruence |].
                 rewrite Huf in Hc. injection Hc as ->. apply Z.ltb_lt in He. rewrite He in Hrun.
                 injection Hrun as <- <- _ _. split; reflexivity.
              ** injection Hl as <- _. cbn [fallback_calls_ok] in Hok. rewrite Hm, Hs, Hmap in Hok.
                 cbv iota beta in Hok. cbn [snd] in Hok. destruct Hok as (_ & Hok & _). congruence.
        -- (* both calls succeed: the read goes on with the next element *)
           pose proof (map_unmap_nonneg E w s Hw Hmf) as Hnn.
           rewrite Hmap in Hnn. cbn [snd] in Hnn. specialize (Hnn Huf).
           rewrite Hun in Hnn. cbn [fst snd] in Hnn. destruct Hnn as [-> Hw2].
           change (0 <? 0) with false. cbv iota beta.
           specialize (IH w2 (prefix ++ [x]) Hw2 Hrest).
           destruct (pt_image_read_cold E img w2 buf size a addr (prefix ++ [x]) rest)
             as [[[st' b'] img'] w'].
           destruct IH as [IH1 IH2]. split.
           ++ intros Hok. cbn [fallback_calls_ok] in Hok. rewrite Hm, Hs, Hmap in Hok.
              cbv iota beta in Hok. cbn [snd] in Hok. rewrite Hun in Hok. cbn [snd] in Hok.
              destruct Hok as (_ & _ & Hok). exact (IH1 Hok).
           ++ intros [|y pre] x' post e Hl Hok Hx' He Hcall.
              ** injection Hl as <- _. cbn [fallback_world] in Hcall.
                 rewrite Hs, Hmap in Hcall. cbn [snd] in Hcall.
                 destruct Hcall as [Hc | [_ Hc]]; congruence.
              ** injection Hl as <- Hl.
                 cbn [fallback_calls_ok fallback_world] in Hok, Hcall.
                 rewrite Hm, Hs, Hmap in Hok, Hcall. cbv iota beta in Hok, Hcall.
                 cbn [snd] in Hok, Hcall. rewrite Hun in Hok, Hcall. cbn [snd] in Hok, Hcall.
                 destruct Hok as (_ & _ & Hok).
                 exact (IH2 pre x' post e Hl Hok Hx' He Hcall).
Qed.



Lemma fallback_outcome_mapped E img w buf size a addr x rest status buf' :
  sl_mapped x = true ->
  fallback_outcome E img w buf size a addr rest status buf' ->
  fallback_outcome E img w buf size a addr (x :: rest) status buf'.
Proof.
  intros Hm [H1 H2]. split.
  - intros Hok. apply H1. cbn [fallback_calls_ok] in Hok. rewrite Hm in Hok. exact Hok.
  - intros [|y pre] x' post e Hl Hok Hx' He Hcall.
    + injection Hl as -> _. congruence.
    + injection Hl as -> Hl. cbn [fallback_calls_ok fallback_world] in Hok, Hcall.
      rewrite Hm in Hok, Hcall. exact (H2 pre x' post e Hl Hok Hx' He Hcall).
Qed.

Lemma read_hot_fallback E img w buf size a addr prefix rest :
  (forall k, 0 <= w_mcount w k) ->
  (forall l, In l rest -> forall w',
     fst (pt_msec_read_mapped E w' (sl_section l) buf size (Some a) addr) < 0) ->
  let '(status, buf', _, _) := pt_image_read_hot E img w buf size a addr prefix rest in
  fallback_outcome E img w buf size a addr rest status buf'.
Proof.
  revert prefix. induction rest as [|x rest IH]; intros prefix Hw Hfail;
    cbn [pt_image_read_hot].
  - apply read_cold_fallback; assumption.
  - destruct (sl_mapped x) eqn:Hm; cbn [negb].
    + assert (Hx := Hfail x (or_introl eq_refl) w).
      pose proof (read_mapped_fail_buf E w (sl_section x) buf size (Some a) addr Hx) as Hb.
      destruct (pt_msec_read_mapped E w (sl_section x) buf size (Some a) addr)
        as [st b] eqn:Hr.
      simpl in Hx, Hb. subst b.
      apply Z.ltb_lt in Hx. rewrite Hx.
      specialize (IH (prefix ++ [x]) Hw (fun l Hl => Hfail l (or_intror Hl))).
      destruct (pt_image_read_hot E img w buf size a addr (prefix ++ [x]) rest)
        as [[[st' b'] img'] w'].
      apply fallback_outcome_mapped; assumption.
    + apply read_cold_fallback; assumption.
Qed.

(** C8 (amended): when the asid is present and no element of the image can
    serve the read (whatever the mapping state), [pt_image_read] tries the
    elements in turn, mapping and unmapping again each one not flagged
    mapped.  If none of these map or unmap calls fails, it calls the
    callback with the caller's buffer, size, asid, address and the image's
    callback context and returns what it returns (status and buffer);
    without a callback it returns NoMap and leaves the buffer alone.  If one
    of these calls fails, the read returns that call's error at once and
    leaves the buffer alone, without going on to the callback. *)
Theorem pt_image_read_fallback E img w buf size a addr :
  (forall k, 0 <= w_mcount w k) ->
  (forall l, In l (sections img) -> forall w',
     fst (pt_msec_read_mapped E w' (sl_section l) buf size (Some a) addr) < 0) ->
  let '(status, buf', _, _) := pt_image_read E img w buf size (Some a) addr in
  (fallback_calls_ok E w (sections img) ->
   (status, buf') = match readmem_callback img with
                    | Some callback => callback buf size a addr (readmem_context img)
                    | None => (- pte_nomap, buf)
                    end)
  /\ (forall pre x post e,
        sections img = pre ++ x :: post -> fallback_calls_ok E w pre ->
        sl_mapped x = false -> e < 0 ->
        (map_fails E (fallback_world E w pre) (sl_sec x) = Some e
         \/ (map_fails E (fallback_world E w pre) (sl_sec x) = None
             /\ unmap_fails E (snd (pt_section_map E (fallback_world E w pre) (sl_sec x)))
                  (sl_sec x) = Some e)) ->
        status = e /\ buf' = buf).
Proof.
  intros Hw Hfail. unfold pt_image_read.
  pose proof (read_hot_fallback E img w buf size a addr [] (sections img) Hw Hfail) as H.
  destruct (pt_image_read_hot E img w buf size a addr [] (sections img))
    as [[[status buf'] img'] w'].
  exact H.
Qed.

(** Witness of C8: the image holding /a in address space cr3=1, with a
    callback that reads one byte 0xab, read out of range.  Without
    failures the callback answers; when mapping fails, the read returns
    NoMem. *)
Lemma pt_image_read_fallback_witness :
  (let '(status, buf', _, _) :=
     pt_image_read env_ok fallback_image (snd c9_state) [Byte.x00; Byte.x00] 2
                   (Some (asid_cr3 1)) 0x1234 in
   (status, buf') = (1, [Byte.xab; Byte.x00]))
  /\ (let '(status, buf', _, _) :=
        pt_image_read env_map_fails fallback_image (snd c9_state) [Byte.x00; Byte.x00] 2
                      (Some (asid_cr3 1)) 0x1234 in
      status = - pte_nomem /\ buf' = [Byte.x00; Byte.x00]).
Proof.
  assert (Hw : forall k, 0 <= w_mcount (snd c9_state) k).
  { intros k. vm_compute. destruct k as [|[|k]]; discriminate. }
  assert (Hf : forall E l, In l (sections fallback_image) -> forall w',
     fst (pt_msec_read_mapped E w' (sl_section l) [Byte.x00; Byte.x00] 2
                              (Some (asid_cr3 1)) 0x1234) < 0).
  { intros E l Hl w'. remember (sections fallback_image) as ls eqn:Hls.
    vm_compute in Hls. subst ls. destruct Hl as [<- | []].
    vm_compute. reflexivity. }
  split.
  - pose proof (pt_image_read_fallback env_ok fallback_image (snd c9_state)
                  [Byte.x00; Byte.x00] 2 (asid_cr3 1) 0x1234 Hw (Hf env_ok)) as H.
    destruct (pt_image_read env_ok fallback_image (snd c9_state) [Byte.x00; Byte.x00] 2
                (Some (asid_cr3 1)) 0x1234) as [[[st b] i] w'].
    destruct H as [H _]. rewrite H; [vm_compute; reflexivity |].
    vm_compute. repeat split.
  - pose proof (pt_image_read_fallback env_map_fails fallback_image (snd c9_state)
                  [Byte.x00; Byte.x00] 2 (asid_cr3 1) 0x1234 Hw (Hf env_map_fails)) as H.
    destruct (pt_image_read env_map_fails fallback_image (snd c9_state) [Byte.x00; Byte.x00] 2
                (Some (asid_cr3 1)) 0x1234) as [[[st b] i] w'].
    destruct H as [_ H].
    remember (sections fallback_image) as ls eqn:Hls. vm_compute in Hls. subst ls.
    refine (H [] _ [] (- pte_nomem) eq_refl I eq_refl _ _); [unfold pte_nomem; lia |].
    left. reflexivity.
Defined.

(** ** Adding the same range twice *)

Lemma image_clone_shape E w next msec b e errcode next' w' :
  pt_image_clone E w next msec b e = (errcode, next', w') ->
  (errcode <? 0) = false ->
  next' = next \/
  exists s', next' = mk_sl (mk_msec s' (msec_asid msec) b) false :: next
             /\ sec_size s' = u64 (e - b).
Proof.
  unfold pt_image_clone. intros H Hn.
  destruct (e <=? b).
  { injection H as <- <- <-. vm_compute in Hn. discriminate Hn. }
  destruct (b <? pt_msec_begin msec).
  { injection H as <- <- <-. vm_compute in Hn. discriminate Hn. }
  destruct (pt_section_clone E w _ _ _) as [[ce [sec|]] cw] eqn:Hc.
  2: { injection H as <- <- <-. left. reflexivity. }
  assert (Hs : sec_size sec = u64 (e - b)).
  { unfold pt_section_clone in Hc. destruct (_ || _); [discriminate |].
    destruct (clone_fails _ _ _); [discriminate |].
    injection Hc as _ <- _. reflexivity. }
  unfold pt_mk_section_list, pt_section_get in H.
  destruct (malloc_fails E cw).
  { injection H as <- <- <-. vm_compute in Hn. discriminate Hn. }
  cbn zeta in H. rewrite Z.ltb_irrefl in H.
  destruct (pt_section_put _ _) as [pe pw]. destruct (pe <? 0) eqn:Hp.
  - injection H as <- <- <-. rewrite Hp in Hn. discriminate Hn.
  - injection H as <- <- <-. right. exists sec. split; [reflexivity | exact Hs].
Qed.

Lemma clone_prefix E w next msec cb ce errcode next'' w'' (P : pt_section_list -> Prop) :
  pt_image_clone E w next msec cb ce = (errcode, next'', w'') ->
  (errcode <? 0) = false ->
  (forall s', sec_size s' = u64 (ce - cb) -> P (mk_sl (mk_msec s' (msec_asid msec) cb) false)) ->
  exists f, next'' = f ++ next /\ Forall P f.
Proof.
  intros H Hn HP.
  destruct (image_clone_shape E w next msec cb ce errcode next'' w'' H Hn)
    as [-> | (s' & -> & Hs)].
  - exists []. split; [reflexivity | constructor].
  - exists [mk_sl (mk_msec s' (msec_asid msec) cb) false].
    split; [reflexivity | constructor; [apply HP; exact Hs | constructor]].
Qed.

Lemma add_loop_done_shape E w section a b e kept rest removed next w' kept' removed' next' :
  0 <= b < 2 ^ 64 ->
  pt_image_add_loop E w section (Some a) b e kept rest removed next
    = ALDone w' kept' removed' next' ->
  exists pre cl, kept' = kept ++ pre /\ Forall (add_skips (Some a) b e) pre
                 /\ next' = cl ++ next /\ Forall (add_skips (Some a) b e) cl.
Proof.
  intros Hb. revert w kept removed next.
  induction rest as [|x rest IH]; intros w kept removed next H;
    cbn [pt_image_add_loop] in H.
  - injection H as <- <- <- <-. exists [], [].
    rewrite !app_nil_r. repeat split; constructor.
  - unfold pt_msec_matches_asid in H.
    destruct (asid_match_some (msec_asid (sl_section x)) a) as [Hm | Hm];
      rewrite Hm in H.
    + simpl in H. apply IH in H.
      destruct H as (pre & cl & -> & Hpre & -> & Hcl).
      exists (x :: pre), cl. rewrite <- app_assoc.
      repeat split; auto. constructor; [left; exact Hm | exact Hpre].
    + simpl in H.
      destruct ((e <=? pt_msec_begin (sl_section x)) || (pt_msec_end (sl_section x) <=? b))
        eqn:Hd.
      * apply IH in H.
        destruct H as (pre & cl & -> & Hpre & -> & Hcl).
        exists (x :: pre), cl. rewrite <- app_assoc.
        repeat split; auto. constructor; [| exact Hpre].
        right. split; [exact Hm |].
        apply orb_true_iff in Hd. destruct Hd as [Hd | Hd]; apply Z.leb_le in Hd; auto.
      * destruct (_ && _ && _).
        { destruct removed as [|? ?]; [destruct next as [|? [|? ?]] |]; discriminate. }
        set (w1 := if sl_mapped x then _ else w) in H.
        destruct (if pt_msec_begin (sl_section x) <? b
                  then pt_image_clone E w1 next (sl_section x) (pt_msec_begin (sl_section x)) b
                  else (0, next, w1)) as [[fe fnext] fw] eqn:Hf.
        destruct (fe <? 0) eqn:Hfe; [discriminate H |].
        assert (Hfr : exists f, fnext = f ++ next /\ Forall (add_skips (Some a) b e) f).
        { destruct (pt_msec_begin (sl_section x) <? b) eqn:Hlb.
          - eapply clone_prefix; [exact Hf | exact Hfe |].
            intros s' Hs. right. split; [exact Hm |]. right.
            unfold pt_msec_end, pt_section_size, u64 in *. simpl.
            rewrite Hs, Z.add_mod_idemp_r by lia.
            replace (_ + (b - _)) with b by lia. rewrite Z.mod_small by lia. lia.
          - injection Hf as <- <- <-. exists []. split; [reflexivity | constructor]. }
        destruct (if e <? pt_msec_end (sl_section x)
                  then pt_image_clone E fw fnext (sl_section x) e (pt_msec_end (sl_section x))
                  else (0, fnext, fw)) as [[be bnext] bw] eqn:Hbk.
        destruct (be <? 0) eqn:Hbe; [discriminate H |].
        assert (Hbr : exists f, bnext = f ++ fnext /\ Forall (add_skips (Some a) b e) f).
        { destruct (e <? pt_msec_end (sl_section x)) eqn:Hle.
          - eapply clone_prefix; [exact Hbk | exact Hbe |].
            intros s' Hs. right. split; [exact Hm |]. left.
            unfold pt_msec_begin. simpl. lia.
          - injection Hbk as <- <- <-. exists []. split; [reflexivity | constructor]. }
        apply IH in H.
        destruct H as (pre & cl & -> & Hpre & -> & Hcl).
        destruct Hfr as (f & -> & Hf'). destruct Hbr as (bk & -> & Hb').
        exists pre, (cl ++ bk ++ f).
        rewrite !app_assoc. repeat split; auto.
        rewrite <- app_assoc. apply Forall_app. split; [exact Hcl | apply Forall_app; auto].
Qed.

Lemma add_loop_dedup_shape E w section a b e kept rest removed next w' :
  pt_image_add_loop E w section (Some a) b e kept rest removed next = ALDedup w' ->
  exists pre x post n, rest = pre ++ x :: post /\ Forall (add_skips (Some a) b e) pre
    /\ removed = [] /\ next = [n] /\ w' = pt_section_list_free E w n
    /\ pt_msec_matches_asid (sl_section x) (Some a) = 1
    /\ pt_msec_begin (sl_section x) = b /\ pt_msec_end (sl_section x) = e /\ b < e
    /\ sec_filename (msec_section (sl_section x)) = sec_filename section.
Proof.
  revert w kept removed next.
  induction rest as [|x rest IH]; intros w kept removed next H;
    cbn [pt_image_add_loop] in H; [discriminate H |].
  unfold pt_msec_matches_asid in H.
  destruct (asid_match_some (msec_asid (sl_section x)) a) as [Hm | Hm];
    rewrite Hm in H; simpl in H.
  - apply IH in H.
    destruct H as (pre & y & post & n & -> & Hpre & Hrest).
    exists (x :: pre), y, post, n. split; [reflexivity |]. split; [| exact Hrest].
    constructor; [left; exact Hm | exact Hpre].
  - destruct ((e <=? pt_msec_begin (sl_section x)) || (pt_msec_end (sl_section x) <=? b))
      eqn:Hd.
    + apply IH in H.
      destruct H as (pre & y & post & n & -> & Hpre & Hrest).
      exists (x :: pre), y, post, n. split; [reflexivity |]. split; [| exact Hrest].
      constructor; [| exact Hpre].
      right. split; [exact Hm |].
      apply orb_true_iff in Hd. destruct Hd as [Hd | Hd]; apply Z.leb_le in Hd; auto.
    + destruct ((b =? pt_msec_begin (sl_section x)) && (e =? pt_msec_end (sl_section x))
                && String.eqb (pt_section_filename section)
                     (pt_section_filename (msec_section (sl_section x)))) eqn:Hq.
      * destruct removed as [|? ?]; [destruct next as [|n [|? ?]] |]; try discriminate H.
        injection H as <-.
        apply andb_true_iff in Hq. destruct Hq as [Hq Hf].
        apply andb_true_iff in Hq. destruct Hq as [Hb He].
        apply Z.eqb_eq in Hb, He. apply String.eqb_eq in Hf.
        apply orb_false_iff in Hd. destruct Hd as [Hd1 Hd2].
        apply Z.leb_gt in Hd1, Hd2.
        exists [], x, rest, n. repeat split; auto; try lia.
      * repeat break_in H; try discriminate H.
        apply IH in H. destruct H as (? & ? & ? & ? & _ & _ & Hr & _). discriminate Hr.
Qed.

Lemma add_loop_break_neg E w section asid b e kept rest removed next errcode w' cur
    removed' next' :
  pt_image_add_loop E w section asid b e kept rest removed next
    = ALBreak errcode w' cur removed' next' -> errcode < 0.
Proof.
  revert w kept removed next.
  induction rest as [|x rest IH]; intros w kept removed next H;
    cbn [pt_image_add_loop] in H; [discriminate H |].
  repeat break_in H; try discriminate H; eauto;
    injection H as <- _ _ _ _;
    first [apply Z.ltb_lt; assumption | vm_compute; reflexivity].
Qed.

Lemma put_after_get w s :
  0 < w_ucount w (sec_id s) ->
  pt_section_put (set_ucount (tick w) (sec_id s) (w_ucount (tick w) (sec_id s) + 1)) s
  = (0, set_ucount (set_ucount (tick w) (sec_id s) (w_ucount (tick w) (sec_id s) + 1))
                   (sec_id s) (w_ucount w (sec_id s))).
Proof.
  intros Hu. unfold pt_section_put. cbn [w_ucount set_ucount tick]. unfold upd.
  rewrite Nat.eqb_refl.
  replace (w_ucount w (sec_id s) + 1 <=? 0) with false by (symmetry; apply Z.leb_gt; lia).
  replace (w_ucount w (sec_id s) + 1 =? 1) with false by (symmetry; apply Z.eqb_neq; lia).
  replace (w_ucount w (sec_id s) + 1 - 1) with (w_ucount w (sec_id s)) by lia.
  reflexivity.
Qed.

(** Adding a range that the image already holds, after elements the loop
    skips, returns at once and hands back the new element's reference. *)
Lemma add_dedup_again E img w s a V pre x post :
  sections img = pre ++ x :: post ->
  Forall (add_skips (Some a) V (u64 (V + sec_size s))) pre ->
  pt_msec_matches_asid (sl_section x) (Some a) = 1 ->
  pt_msec_begin (sl_section x) = V ->
  pt_msec_end (sl_section x) = u64 (V + sec_size s) ->
  V < u64 (V + sec_size s) ->
  sec_filename (msec_section (sl_section x)) = sec_filename s ->
  malloc_fails E w = false ->
  0 < w_ucount w (sec_id s) ->
  exists w2, pt_image_add E img w s (Some a) V = (0, img, w2)
    /\ (forall k, w_ucount w2 k = w_ucount w k)
    /\ (forall k, w_mcount w2 k = w_mcount w k).
Proof.
  intros Hsec Hpre Hm Hb He Hlt Hf Hmal Hu.
  unfold pt_image_add.
  assert (Hmk : pt_mk_section_list E w s (Some a) V
                = (Some (mk_sl (pt_msec_init s (Some a) V) false),
                   set_ucount (tick w) (sec_id s) (w_ucount (tick w) (sec_id s) + 1))).
  { unfold pt_mk_section_list. rewrite Hmal. reflexivity. }
  rewrite Hmk, Hsec. unfold pt_section_size.
  rewrite add_loop_skips by exact Hpre. cbn [app].
  rewrite add_loop_dedup by assumption.
  eexists. split; [reflexivity |].
  unfold pt_section_list_free. cbn [sl_mapped sl_section msec_section pt_msec_init].
  rewrite put_after_get by exact Hu. cbn [snd].
  split; intros k; cbn; unfold upd; destruct (Nat.eqb k (sec_id s)) eqn:Hk;
    try (apply Nat.eqb_eq in Hk; subst k); reflexivity.
Qed.

(** A successful add leaves an element for exactly the added range, of the
    added file and matching the asid, after elements the overlap loop skips;
    either the element is the last one, or the image is left as it was. *)
Lemma add_success_shape E img w s a V e img1 w1 :
  0 <= V -> 0 < sec_size s -> V + sec_size s < 2 ^ 64 ->
  pt_image_add E img w s (Some a) V = (e, img1, w1) -> (e <? 0) = false ->
  exists pre x post, sections img1 = pre ++ x :: post
    /\ Forall (add_skips (Some a) V (V + sec_size s)) pre
    /\ pt_msec_matches_asid (sl_section x) (Some a) = 1
    /\ pt_msec_begin (sl_section x) = V /\ pt_msec_end (sl_section x) = V + sec_size s
    /\ sec_filename (msec_section (sl_section x)) = sec_filename s
    /\ (post = [] \/ img1 = img).
Proof.
  intros HV Hs Hr H1 He1.
  assert (Hend : u64 (V + sec_size s) = V + sec_size s)
    by (unfold u64; apply Z.mod_small; lia).
  unfold pt_image_add in H1.
  destruct (pt_mk_section_list E w s (Some a) V) as [[n|] wm] eqn:Hmk.
  2: { injection H1 as <- _ _. vm_compute in He1. discriminate He1. }
  assert (Hn : n = mk_sl (pt_msec_init s (Some a) V) false).
  { unfold pt_mk_section_list in Hmk. destruct (malloc_fails E w); [discriminate Hmk |].
    simpl in Hmk. injection Hmk as <- _. reflexivity. }
  subst n. unfold pt_section_size in H1.
  lazymatch type of H1 with
  | context [pt_image_add_loop ?E' ?w' ?s' ?as' ?b' ?e' ?k' ?r' ?rm' ?nx'] =>
      destruct (pt_image_add_loop E' w' s' as' b' e' k' r' rm' nx') eqn:Hl
  end.
  - injection H1 as _ <- _.
    apply add_loop_dedup_shape in Hl.
    destruct Hl as (pre & x & post & n & Hsec & Hpre & _ & _ & _ & Hm & Hb & He & Hlt & Hf).
    rewrite Hend in Hpre, He.
    exists pre, x, post.
    do 6 (split; [assumption |]). right. reflexivity.
  - apply add_loop_break_neg in Hl. injection H1 as <- _ _.
    apply Z.ltb_ge in He1. lia.
  - injection H1 as _ <- _.
    apply add_loop_done_shape in Hl; [| lia].
    destruct Hl as (pre & cl & Hk & Hpre & Hnx & Hcl).
    cbn [app] in Hk. subst. rewrite Hend in Hpre, Hcl.
    exists (pre ++ cl), (mk_sl (pt_msec_init s (Some a) V) false), [].
    cbn [sections set_sections].
    split; [rewrite <- app_assoc; reflexivity |].
    split; [apply Forall_app; split; assumption |].
    split; [exact (asid_match_refl a) |].
    split; [reflexivity |].
    split; [exact Hend |].
    split; [reflexivity |].
    left. reflexivity.
Qed.

Lemma asid_match_fields p a :
  pt_asid_match p (Some a) = 1 <->
  (cr3 p = cr3 a \/ cr3 p = pt_asid_no_cr3 \/ cr3 a = pt_asid_no_cr3)
  /\ (vmcs p = vmcs a \/ vmcs p = pt_asid_no_vmcs \/ vmcs a = pt_asid_no_vmcs).
Proof.
  unfold pt_asid_match.
  repeat match goal with |- context [(?x =? ?y)] => destruct (Z.eqb_spec x y) end;
    cbn; split; intros H; try discriminate H; try reflexivity; intuition congruence.
Qed.

(** Two asids that both match a fully given asid match each other. *)
Lemma asid_match_via a p q :
  cr3 a <> pt_asid_no_cr3 -> vmcs a <> pt_asid_no_vmcs ->
  pt_asid_match p (Some a) = 1 -> pt_asid_match q (Some a) = 1 ->
  pt_asid_match p (Some q) = 1.
Proof.
  rewrite !asid_match_fields. intros Hc Hv [Hp1 Hp2] [Hq1 Hq2].
  split.
  - destruct Hp1 as [Hp1 | [Hp1 | Hp1]]; [| auto | contradiction].
    destruct Hq1 as [Hq1 | [Hq1 | Hq1]]; [left; congruence | auto | contradiction].
  - destruct Hp2 as [Hp2 | [Hp2 | Hp2]]; [| auto | contradiction].
    destruct Hq2 as [Hq2 | [Hq2 | Hq2]]; [left; congruence | auto | contradiction].
Qed.

Lemma skips_filtered a b e l :
  Forall (add_skips (Some a) b e) l ->
  filter (fun y => elem_matches a y && overlaps b e y) l = [].
Proof.
  induction 1 as [|y l Hy Hl IH]; cbn [filter]; [reflexivity |].
  unfold elem_matches, overlaps.
  destruct Hy as [Hy | [Hy [Ho | Ho]]]; rewrite Hy; cbn [Z.eqb Pos.eqb andb].
  - exact IH.
  - replace (pt_msec_begin (sl_section y) <? e) with false
      by (symmetry; apply Z.ltb_ge; exact Ho).
    exact IH.
  - replace (b <? pt_msec_end (sl_section y)) with false
      by (symmetry; apply Z.ltb_ge; exact Ho).
    rewrite andb_false_r. exact IH.
Qed.

Lemma no_clashes_app_cons pre x post :
  no_clashes (pre ++ x :: post) = true ->
  forallb (fun y => negb (clashes x y)) post = true.
Proof.
  induction pre as [|z pre IH]; cbn [app no_clashes]; intros H;
    apply andb_true_iff in H; destruct H as [H1 H2]; auto.
Qed.

Lemma filter_none_in {A} (f : A -> bool) l :
  (forall y, In y l -> f y = false) -> filter f l = [].
Proof.
  induction l as [|y l IH]; intros H; cbn [filter]; [reflexivity |].
  rewrite (H y (or_introl eq_refl)). apply IH. intros z Hz. apply H. right. exact Hz.
Qed.

(** C4 (amended): when [add_file] of the range [offset, offset + size) of
    [filename] at [vaddr] with a valid user asid succeeds, where [size] is
    positive and [vaddr + size] stays below 2^64, the same [add_file] call
    again (its allocations succeeding) returns success, leaves the image
    exactly as the first call left it, and leaves every section's use count
    and map count as they were, except that the section the second call
    created is destroyed again: no reference leaks.  When neither field of
    the asid is a wildcard and no two entries of the original image clash,
    the image after the calls holds exactly one entry that matches the
    asid and overlaps [vaddr, vaddr + size): an entry of [filename] for
    exactly that range. *)
Theorem pt_image_add_file_idempotent E img w f o sz uasid a V e1 img1 w1 :
  pt_asid_from_user uasid = (0, a) ->
  0 <= V -> 0 < sz -> V + sz < 2 ^ 64 ->
  pt_image_add_file E img w f o sz uasid V = (e1, img1, w1) -> e1 = 0 ->
  malloc_fails E w1 = false ->
  malloc_fails E (snd (pt_mk_section E w1 f o sz)) = false ->
  (exists w2, pt_image_add_file E img1 w1 f o sz uasid V = (0, img1, w2)
     /\ (forall k, k <> w_next w1 ->
                   w_ucount w2 k = w_ucount w1 k /\ w_mcount w2 k = w_mcount w1 k)
     /\ w_ucount w2 (w_next w1) = 0 /\ w_mcount w2 (w_next w1) = 0)
  /\ (cr3 a <> pt_asid_no_cr3 -> vmcs a <> pt_asid_no_vmcs ->
      no_clashes (sections img) = true ->
      exists x, filter (fun y => elem_matches a y && overlaps V (V + sz) y) (sections img1) = [x]
        /\ pt_msec_begin (sl_section x) = V /\ pt_msec_end (sl_section x) = V + sz
        /\ sec_filename (msec_section (sl_section x)) = f).
Proof.
  intros Hua HV Hsz Hr H1 He1 Hmal1 Hmal2.
  assert (Hend : u64 (V + sz) = V + sz) by (unfold u64; apply Z.mod_small; lia).
  (* The first call leaves an entry for the range. *)
  assert (Hshape : exists pre x post, sections img1 = pre ++ x :: post
    /\ Forall (add_skips (Some a) V (V + sz)) pre
    /\ pt_msec_matches_asid (sl_section x) (Some a) = 1
    /\ pt_msec_begin (sl_section x) = V /\ pt_msec_end (sl_section x) = V + sz
    /\ sec_filename (msec_section (sl_section x)) = f
    /\ (post = [] \/ img1 = img)).
  { unfold pt_image_add_file in H1. rewrite Hua in H1. cbv beta iota in H1.
    change (0 <? 0) with false in H1. cbv iota in H1.
    destruct (pt_mk_section E w f o sz) as [[s1|] wm1] eqn:Hmk1.
    2: { injection H1 as <- _ _. vm_compute in He1. discriminate He1. }
    assert (Hs1 : sec_size s1 = sz /\ sec_filename s1 = f).
    { unfold pt_mk_section in Hmk1. destruct (sz =? 0); [discriminate Hmk1 |].
      destruct (malloc_fails E w); [discriminate Hmk1 |].
      injection Hmk1 as <- _. split; reflexivity. }
    destruct Hs1 as [Hs1 Hf1].
    destruct (pt_image_add E img wm1 s1 (Some a) V) as [[ea img1'] wa] eqn:Hadd.
    destruct (ea <? 0) eqn:Hea.
    { injection H1 as <- _ _. apply Z.ltb_lt in Hea. lia. }
    destruct (pt_section_put wa s1) as [ep wp].
    destruct (ep <? 0) eqn:Hep.
    { injection H1 as <- _ _. apply Z.ltb_lt in Hep. lia. }
    injection H1 as _ <- _.
    apply add_success_shape in Hadd; [| lia | lia | lia | exact Hea].
    rewrite Hs1, Hf1 in Hadd. exact Hadd. }
  destruct Hshape as (pre & x & post & Hsec & Hpre & Hm & Hb & He & Hf & Hpost).
  split.
  - (* The second call finds that entry and drops its section again. *)
    unfold pt_image_add_file. rewrite Hua. cbv beta iota.
    change (0 <? 0) with false. cbv iota.
    set (s2 := mk_section (w_next w1) f o sz).
    set (wm2 := tick (bump_next (set_mcount (set_ucount w1 (w_next w1) 1) (w_next w1) 0))).
    assert (Hmk2 : pt_mk_section E w1 f o sz = (Some s2, wm2)).
    { unfold pt_mk_section. replace (sz =? 0) with false by (symmetry; apply Z.eqb_neq; lia).
      rewrite Hmal1. reflexivity. }
    rewrite Hmk2 in Hmal2 |- *. cbn [snd] in Hmal2.
    assert (Hu1 : w_ucount wm2 (sec_id s2) = 1).
    { cbn. unfold upd. rewrite Nat.eqb_refl. reflexivity. }
    destruct (add_dedup_again E img1 wm2 s2 a V pre x post Hsec)
      as (w2' & Hadd2 & Hu2 & Hm2);
      cbn [sec_size sec_filename s2]; rewrite ?Hend; try assumption; try lia.
    rewrite Hadd2. change (0 <? 0) with false. cbv iota.
    unfold pt_section_put. rewrite Hu2, Hu1. cbn -[w_next].
    eexists. split; [reflexivity |].
    assert (Hw : forall k, k <> w_next w1 ->
                 w_ucount wm2 k = w_ucount w1 k /\ w_mcount wm2 k = w_mcount w1 k).
    { intros k Hk. cbn. unfold upd. apply Nat.eqb_neq in Hk. rewrite Hk. split; reflexivity. }
    split; [| split].
    + intros k Hk. cbn [w_ucount w_mcount set_mcount set_ucount]. unfold upd.
      apply Nat.eqb_neq in Hk as Hk'. cbn [sec_id s2]. rewrite Hk', Hu2, Hm2. exact (Hw k Hk).
    + cbn [w_ucount w_mcount set_mcount set_ucount sec_id s2]. unfold upd.
      rewrite Nat.eqb_refl. reflexivity.
    + cbn [w_ucount w_mcount set_mcount set_ucount sec_id s2]. unfold upd.
      rewrite Nat.eqb_refl. reflexivity.
  - (* Exactly one entry for the range. *)
    intros Hc Hv Hnc. exists x. split; [| auto].
    rewrite Hsec, filter_app, (skips_filtered a V (V + sz) pre Hpre).
    cbn [filter app].
    assert (Hx : elem_matches a x && overlaps V (V + sz) x = true).
    { unfold elem_matches, overlaps. rewrite Hm, Hb, He.
      apply andb_true_iff. split; [reflexivity | apply andb_true_iff; split; apply Z.ltb_lt; lia]. }
    rewrite Hx. f_equal.
    destruct Hpost as [-> | ->]; [reflexivity |].
    rewrite Hsec in Hnc. apply no_clashes_app_cons in Hnc.
    apply filter_none_in. intros y Hy.
    rewrite forallb_forall in Hnc. specialize (Hnc y Hy).
    destruct (elem_matches a y && overlaps V (V + sz) y) eqn:Hyb; [| reflexivity].
    exfalso. apply andb_true_iff in Hyb. destruct Hyb as [Hy1 Hy2].
    unfold elem_matches, pt_msec_matches_asid in Hy1. apply Z.eqb_eq in Hy1.
    unfold pt_msec_matches_asid in Hm.
    assert (Hcl : clashes x y = true).
    { unfold clashes. rewrite (asid_match_via a _ _ Hc Hv Hm Hy1), Hb, He. exact Hy2. }
    rewrite Hcl in Hnc. discriminate Hnc.
Qed.

(** Witness of C4: /a added over [0, 0x100) in address space cr3=1,
    vmcs=7, twice, to the image holding /a there in address spaces cr3=1
    and cr3=2. *)
Lemma pt_image_add_file_idempotent_witness :
  let '(e1, img1, w1) :=
    pt_image_add_file env_ok (fst cr3_pair_state) (snd cr3_pair_state) "/a" 0 0x100
                      (Some asid_full) 0 in
  e1 = 0
  /\ (exists w2, pt_image_add_file env_ok img1 w1 "/a" 0 0x100 (Some asid_full) 0 = (0, img1, w2)
       /\ (forall k, k <> w_next w1 ->
                     w_ucount w2 k = w_ucount w1 k /\ w_mcount w2 k = w_mcount w1 k)
       /\ w_ucount w2 (w_next w1) = 0 /\ w_mcount w2 (w_next w1) = 0)
  /\ exists x, filter (fun y => elem_matches asid_full y && overlaps 0 (0 + 0x100) y)
                      (sections img1) = [x]
       /\ pt_msec_begin (sl_section x) = 0 /\ pt_msec_end (sl_section x) = 0 + 0x100
       /\ sec_filename (msec_section (sl_section x)) = "/a"%string.
Proof.
  destruct (pt_image_add_file env_ok (fst cr3_pair_state) (snd cr3_pair_state) "/a" 0 0x100
              (Some asid_full) 0) as [[e1 img1] w1] eqn:Hr.
  assert (He : e1 = 0).
  { pose proof (f_equal (fun t => fst (fst t)) Hr) as Ht. vm_compute in Ht. symmetry. exact Ht. }
  destruct (pt_image_add_file_idempotent env_ok (fst cr3_pair_state) (snd cr3_pair_state)
              "/a" 0 0x100 (Some asid_full) asid_full 0 e1 img1 w1
              eq_refl ltac:(lia) ltac:(lia) ltac:(lia) Hr He eq_refl eq_refl) as [T1 T2].
  split; [exact He | split; [exact T1 |]].
  apply T2; [vm_compute; discriminate | vm_compute; discriminate | vm_compute; reflexivity].
Defined.

(** * Further properties of the image operations *)

Lemma matches_cases a x :
  (pt_msec_matches_asid (sl_section x) (Some a) <? 0) = false /\
  ((pt_msec_matches_asid (sl_section x) (Some a) =? 0) = negb (elem_matches a x)).
Proof.
  unfold elem_matches, pt_msec_matches_asid.
  destruct (asid_match_some (msec_asid (sl_section x)) a) as [H | H]; rewrite H; auto.
Qed.

Lemma remove_by_asid_loop_spec E w a removed prefix rest :
  pt_image_remove_by_asid_loop E w a removed prefix rest
  = (removed + Z.of_nat (List.length (filter (elem_matches a) rest)),
     prefix ++ filter (fun x => negb (elem_matches a x)) rest,
     pt_section_list_free_tail E w (filter (elem_matches a) rest)).
Proof.
  revert w removed prefix.
  induction rest as [|x rest IH]; intros w removed prefix; cbn [pt_image_remove_by_asid_loop].
  - simpl. rewrite Z.add_0_r, app_nil_r. reflexivity.
  - destruct (matches_cases a x) as [H1 H2]. rewrite H1, H2.
    cbn [filter]. destruct (elem_matches a x); cbn [negb].
    + rewrite IH. cbn [List.length pt_section_list_free_tail fold_left].
      match goal with |- (?x, _, _) = (?y, _, _) => replace x with y by lia end;
      reflexivity.
    + rewrite IH, <- app_assoc. reflexivity.
Qed.

Lemma remove_by_filename_loop_spec E w f a removed prefix rest :
  let hit x := elem_matches a x && String.eqb (sec_filename (msec_section (sl_section x))) f in
  pt_image_remove_by_filename_loop E w f a removed prefix rest
  = (removed + Z.of_nat (List.length (filter hit rest)),
     prefix ++ filter (fun x => negb (hit x)) rest,
     pt_section_list_free_tail E w (filter hit rest)).
Proof.
  intros hit. revert w removed prefix.
  induction rest as [|x rest IH]; intros w removed prefix;
    cbn [pt_image_remove_by_filename_loop].
  - simpl. rewrite Z.add_0_r, app_nil_r. reflexivity.
  - destruct (matches_cases a x) as [H1 H2]. rewrite H1, H2.
    cbn [filter]. unfold pt_section_filename.
    destruct (elem_matches a x) eqn:Hm; cbn [negb].
    + destruct (String.eqb (sec_filename (msec_section (sl_section x))) f) eqn:Hf.
      * assert (Hh : hit x = true) by (unfold hit; rewrite Hm, Hf; reflexivity).
        rewrite Hh. cbn [negb]. rewrite IH.
        cbn [List.length pt_section_list_free_tail fold_left].
        match goal with |- (?x, _, _) = (?y, _, _) => replace x with y by lia end.
        reflexivity.
      * assert (Hh : hit x = false) by (unfold hit; rewrite Hm, Hf; reflexivity).
        rewrite Hh. cbn [negb]. rewrite IH, <- app_assoc. reflexivity.
    + assert (Hh : hit x = false) by (unfold hit; rewrite Hm; reflexivity).
      rewrite Hh. cbn [negb]. rewrite IH, <- app_assoc. reflexivity.
Qed.

Lemma match_wildcard l : pt_asid_match l (Some pt_asid_init) = 1.
Proof.
  unfold pt_asid_match. cbn [cr3 vmcs pt_asid_init].
  rewrite !Z.eqb_refl. simpl. rewrite !andb_false_r. reflexivity.
Qed.

Lemma filter_all {A} (p : A -> bool) l : (forall x, p x = true) -> filter p l = l.
Proof. intros H. induction l; simpl; [reflexivity | rewrite H, IHl; reflexivity]. Qed.

Lemma filter_none {A} (p : A -> bool) l : (forall x, p x = false) -> filter p l = [].
Proof. intros H. induction l; simpl; [reflexivity | rewrite H, IHl; reflexivity]. Qed.

(** For a valid user asid, [pt_image_remove_by_asid] unlinks exactly the
    elements whose asid matches, keeps the others in their order, frees the
    unlinked ones in list order and returns how many it removed. *)
Theorem pt_image_remove_by_asid_spec E img w uasid a :
  pt_asid_from_user uasid = (0, a) ->
  pt_image_remove_by_asid E img w uasid
  = (Z.of_nat (List.length (filter (elem_matches a) (sections img))),
     set_sections img (filter (fun x => negb (elem_matches a x)) (sections img)),
     pt_section_list_free_tail E w (filter (elem_matches a) (sections img))).
Proof.
  intros Ha. unfold pt_image_remove_by_asid. rewrite Ha. cbn [Z.ltb Z.compare].
  rewrite remove_by_asid_loop_spec. reflexivity.
Qed.

(** Witness: removing cr3=1 from the image with /a (cr3=2) and /x (cr3=1). *)
Lemma pt_image_remove_by_asid_spec_witness :
  pt_image_remove_by_asid env_ok (fst two_mapped_state) (snd two_mapped_state) asid0
  = (Z.of_nat (List.length (filter (elem_matches (asid_cr3 1)) (sections (fst two_mapped_state)))),
     set_sections (fst two_mapped_state)
       (filter (fun x => negb (elem_matches (asid_cr3 1) x)) (sections (fst two_mapped_state))),
     pt_section_list_free_tail env_ok (snd two_mapped_state)
       (filter (elem_matches (asid_cr3 1)) (sections (fst two_mapped_state)))).
Proof. apply pt_image_remove_by_asid_spec. reflexivity. Defined.


(** Without an asid (NULL), [pt_image_remove_by_asid] removes and frees every
    element of the image and returns their number. *)
Theorem pt_image_remove_by_asid_all E img w :
  pt_image_remove_by_asid E img w None
  = (Z.of_nat (List.length (sections img)), set_sections img [],
     pt_section_list_free_tail E w (sections img)).
Proof.
  unfold pt_image_remove_by_asid. cbn [pt_asid_from_user]. cbn [Z.ltb Z.compare].
  rewrite remove_by_asid_loop_spec.
  assert (Hm : forall x, elem_matches pt_asid_init x = true).
  { intros x. unfold elem_matches, pt_msec_matches_asid. rewrite match_wildcard. reflexivity. }
  rewrite filter_all by exact Hm.
  rewrite filter_none by (intros x; rewrite Hm; reflexivity).
  reflexivity.
Qed.

(** Without an asid (NULL), [pt_image_remove_by_filename] removes and frees
    every element whose section has the given filename, whatever its asid,
    keeps the others in their order and returns how many it removed. *)
Theorem pt_image_remove_by_filename_all E img w f :
  let hit x := String.eqb (sec_filename (msec_section (sl_section x))) f in
  pt_image_remove_by_filename E img w f None
  = (Z.of_nat (List.length (filter hit (sections img))),
     set_sections img (filter (fun x => negb (hit x)) (sections img)),
     pt_section_list_free_tail E w (filter hit (sections img))).
Proof.
  intros hit. unfold pt_image_remove_by_filename. cbn [pt_asid_from_user]. cbn [Z.ltb Z.compare].
  rewrite remove_by_filename_loop_spec.
  assert (Hm : forall x, elem_matches pt_asid_init x = true).
  { intros x. unfold elem_matches, pt_msec_matches_asid. rewrite match_wildcard. reflexivity. }
  unfold hit. simpl. 
  assert (He : forall l, filter (fun x => elem_matches pt_asid_init x && String.eqb (sec_filename (msec_section (sl_section x))) f) l = filter (fun x => String.eqb (sec_filename (msec_section (sl_section x))) f) l).
  { intros l. apply filter_ext. intros x. rewrite Hm. reflexivity. }
  assert (He' : forall l, filter (fun x => negb (elem_matches pt_asid_init x && String.eqb (sec_filename (msec_section (sl_section x))) f)) l = filter (fun x => negb (String.eqb (sec_filename (msec_section (sl_section x))) f)) l).
  { intros l. apply filter_ext. intros x. rewrite Hm. reflexivity. }
  rewrite He, He'. reflexivity.
Qed.

(** For a valid user asid, [pt_image_remove_by_filename] unlinks exactly the
    elements whose asid matches and whose section has the given filename,
    keeps the others in their order, frees the unlinked ones in list order
    and returns how many it removed. *)
Theorem pt_image_remove_by_filename_spec E img w f uasid a :
  pt_asid_from_user uasid = (0, a) ->
  let hit x := elem_matches a x && String.eqb (sec_filename (msec_section (sl_section x))) f in
  pt_image_remove_by_filename E img w f uasid
  = (Z.of_nat (List.length (filter hit (sections img))),
     set_sections img (filter (fun x => negb (hit x)) (sections img)),
     pt_section_list_free_tail E w (filter hit (sections img))).
Proof.
  intros Ha hit. unfold pt_image_remove_by_filename. rewrite Ha. cbn [Z.ltb Z.compare].
  rewrite remove_by_filename_loop_spec. reflexivity.
Qed.

(** Witness: removing /a in cr3=2 from the image with /a and /x. *)
Lemma pt_image_remove_by_filename_spec_witness :
  pt_image_remove_by_filename env_ok (fst two_mapped_state) (snd two_mapped_state) "/a"%string asid1
  = (Z.of_nat (List.length
       (filter (fun x => elem_matches (asid_cr3 2) x
                         && String.eqb (sec_filename (msec_section (sl_section x))) "/a"%string)
          (sections (fst two_mapped_state)))),
     set_sections (fst two_mapped_state)
       (filter (fun x => negb (elem_matches (asid_cr3 2) x
                               && String.eqb (sec_filename (msec_section (sl_section x))) "/a"%string))
          (sections (fst two_mapped_state))),
     pt_section_list_free_tail env_ok (snd two_mapped_state)
       (filter (fun x => elem_matches (asid_cr3 2) x
                         && String.eqb (sec_filename (msec_section (sl_section x))) "/a"%string)
          (sections (fst two_mapped_state)))).
Proof. apply pt_image_remove_by_filename_spec. reflexivity. Defined.


Lemma upd_other f j v k : k <> j -> upd f j v k = f k.
Proof. intros H. unfold upd. apply Nat.eqb_neq in H. rewrite H. reflexivity. Qed.

Lemma upd_same f j v : upd f j v j = v.
Proof. unfold upd. rewrite Nat.eqb_refl. reflexivity. Qed.

Lemma refs_nonneg k l : 0 <= refs k l.
Proof.
  induction l as [|x l IH]; cbn [refs]; [lia |].
  destruct (Nat.eqb (sec_id (msec_section (sl_section x))) k); lia.
Qed.

Lemma mrefs_nonneg k l : 0 <= mrefs k l.
Proof.
  induction l as [|x l IH]; cbn [mrefs]; [lia |].
  destruct (Nat.eqb (sec_id (msec_section (sl_section x))) k && sl_mapped x); lia.
Qed.

Lemma mrefs_le_refs k l : mrefs k l <= refs k l.
Proof.
  induction l as [|x l IH]; cbn [refs mrefs]; [lia |].
  destruct (Nat.eqb (sec_id (msec_section (sl_section x))) k), (sl_mapped x); cbn [andb]; lia.
Qed.

Lemma unmap_frame E w s k :
  w_ucount (snd (pt_section_unmap E w s)) k = w_ucount w k
  /\ (k <> sec_id s -> w_mcount (snd (pt_section_unmap E w s)) k = w_mcount w k).
Proof.
  unfold pt_section_unmap.
  destruct (unmap_fails E w s); [simpl; auto |].
  destruct (_ <=? 0); simpl; [auto |].
  split; [reflexivity | intros H; apply upd_other; exact H].
Qed.

Lemma unmap_same E w s :
  unmap_fails E w s = None -> 0 < w_mcount w (sec_id s) ->
  w_mcount (snd (pt_section_unmap E w s)) (sec_id s) = w_mcount w (sec_id s) - 1.
Proof.
  intros Hn Hm. unfold pt_section_unmap. rewrite Hn.
  replace (w_mcount w (sec_id s) <=? 0) with false by (symmetry; apply Z.leb_gt; lia).
  simpl. apply upd_same.
Qed.

Lemma put_frame w s k :
  k <> sec_id s ->
  w_ucount (snd (pt_section_put w s)) k = w_ucount w k
  /\ w_mcount (snd (pt_section_put w s)) k = w_mcount w k.
Proof.
  intros H. unfold pt_section_put.
  destruct (_ <=? 0); [simpl; auto |].
  destruct (_ =? 1); simpl; rewrite ?upd_other by exact H; auto.
Qed.

Lemma put_same w s :
  1 < w_ucount w (sec_id s) ->
  w_ucount (snd (pt_section_put w s)) (sec_id s) = w_ucount w (sec_id s) - 1
  /\ w_mcount (snd (pt_section_put w s)) (sec_id s) = w_mcount w (sec_id s).
Proof.
  intros H. unfold pt_section_put.
  replace (w_ucount w (sec_id s) <=? 0) with false by (symmetry; apply Z.leb_gt; lia).
  replace (w_ucount w (sec_id s) =? 1) with false by (symmetry; apply Z.eqb_neq; lia).
  simpl. rewrite upd_same. auto.
Qed.

(** Freeing list elements drops one reference per element and one mapping
    per mapped element, for a section that keeps a reference. *)
Lemma free_tail_counts E w l k :
  (forall w' x, In x l -> sec_id (msec_section (sl_section x)) = k ->
                unmap_fails E w' (msec_section (sl_section x)) = None) ->
  refs k l < w_ucount w k ->
  mrefs k l <= w_mcount w k ->
  w_ucount (pt_section_list_free_tail E w l) k = w_ucount w k - refs k l
  /\ w_mcount (pt_section_list_free_tail E w l) k = w_mcount w k - mrefs k l.
Proof.
  revert w. induction l as [|x l IH]; intros w Hun Hu Hm.
  - simpl. lia.
  - unfold pt_section_list_free_tail. cbn [fold_left].
    fold (pt_section_list_free_tail E (pt_section_list_free E w x) l).
    pose proof (refs_nonneg k l). pose proof (mrefs_nonneg k l).
    pose proof (mrefs_le_refs k l).
    simpl in Hu, Hm. simpl refs. simpl mrefs.
    set (s := msec_section (sl_section x)) in *.
    set (w1 := if sl_mapped x then snd (pt_section_unmap E w s) else w).
    assert (Hw1u : w_ucount w1 k = w_ucount w k).
    { unfold w1. destruct (sl_mapped x); [apply unmap_frame | reflexivity]. }
    destruct (Nat.eqb (sec_id s) k) eqn:Hjk.
    + apply Nat.eqb_eq in Hjk. subst k.
      assert (Hw1m : w_mcount w1 (sec_id s)
                     = w_mcount w (sec_id s) - (if sl_mapped x then 1 else 0)).
      { unfold w1. destruct (sl_mapped x); cbn [andb] in Hm.
        - apply unmap_same; [apply Hun; [left |]; reflexivity | lia].
        - lia. }
      destruct (put_same w1 s) as [Hp1 Hp2]; [lia |].
      destruct (IH (snd (pt_section_put w1 s))) as [IH1 IH2].
      * intros w' y Hy. apply Hun. right. exact Hy.
      * rewrite Hp1. lia.
      * rewrite Hp2, Hw1m. destruct (sl_mapped x); cbn [andb] in Hm; lia.
      * unfold pt_section_list_free. fold s. fold w1.
        rewrite IH1, IH2, Hp1, Hp2, Hw1u, Hw1m.
        destruct (sl_mapped x); cbn [andb]; split; lia.
    + apply Nat.eqb_neq in Hjk. cbn [andb] in Hm |- *.
      assert (Hw1m : w_mcount w1 k = w_mcount w k).
      { unfold w1. destruct (sl_mapped x); [apply unmap_frame; auto | reflexivity]. }
      destruct (put_frame w1 s k) as [Hp1 Hp2]; [auto |].
      destruct (IH (snd (pt_section_put w1 s))) as [IH1 IH2].
      * intros w' y Hy. apply Hun. right. exact Hy.
      * rewrite Hp1, Hw1u. lia.
      * rewrite Hp2, Hw1m. lia.
      * unfold pt_section_list_free. fold s. fold w1.
        rewrite IH1, IH2, Hp1, Hp2, Hw1u, Hw1m. split; lia.
Qed.

(** [pt_image_fini] clears the image and, for the section with id [k] that
    is still referenced from elsewhere and whose unmapping cannot fail (other
    sections may fail to unmap), drops one use per element of the image that
    holds it and one mapping per such element that is mapped. *)
Theorem pt_image_fini_releases E img w k :
  (forall w' x, In x (sections img) -> sec_id (msec_section (sl_section x)) = k ->
                unmap_fails E w' (msec_section (sl_section x)) = None) ->
  refs k (sections img) < w_ucount w k ->
  mrefs k (sections img) <= w_mcount w k ->
  let '(img', w') := pt_image_fini E img w in
  img' = mk_image None [] None 0 0 0
  /\ w_ucount w' k = w_ucount w k - refs k (sections img)
  /\ w_mcount w' k = w_mcount w k - mrefs k (sections img).
Proof.
  intros Hun Hu Hm. unfold pt_image_fini.
  destruct (free_tail_counts E w (sections img) k Hun Hu Hm) as [H1 H2].
  auto.
Qed.

(** Witness: finishing the image with /a and /x mapped while one more
    reference to /x is held; unmapping /a fails, unmapping /x does not. *)
Lemma pt_image_fini_releases_witness :
  let '(img', w') := pt_image_fini env_unmap2_fails (fst two_mapped_state) held_world in
  img' = mk_image None [] None 0 0 0
  /\ w_ucount w' 1 = w_ucount held_world 1 - refs 1 (sections (fst two_mapped_state))
  /\ w_mcount w' 1 = w_mcount held_world 1 - mrefs 1 (sections (fst two_mapped_state)).
Proof.
  apply pt_image_fini_releases.
  - intros w' x _ Hk. cbn [unmap_fails env_unmap2_fails]. rewrite Hk. reflexivity.
  - vm_compute. reflexivity.
  - vm_compute. discriminate.
Defined.


Lemma mask_keep_incl {A} m (l : list A) x : In x (mask_keep m l) -> In x l.
Proof.
  revert l. induction m as [|b m IH]; intros l H; [exact H |].
  destruct l as [|y l]; [exact H |]. cbn [mask_keep] in H.
  destruct b; [right; apply IH; exact H |].
  destruct H as [H | H]; [left; exact H | right; apply IH; exact H].
Qed.

Lemma clone_elems E w next msec cb ce errcode next'' w'' :
  pt_image_clone E w next msec cb ce = (errcode, next'', w'') ->
  (errcode <? 0) = false ->
  forall y, In y next'' -> In y next \/ sl_mapped y = false.
Proof.
  intros H Hn y Hy.
  destruct (image_clone_shape E w next msec cb ce errcode next'' w'' H Hn)
    as [-> | (s' & -> & _)]; [left; exact Hy |].
  destruct Hy as [<- | Hy]; [right; reflexivity | left; exact Hy].
Qed.

Lemma add_loop_done_elems E w section asid b e kept rest removed next w' kept' removed' next' :
  pt_image_add_loop E w section asid b e kept rest removed next
    = ALDone w' kept' removed' next' ->
  (forall x, In x kept' -> In x kept \/ In x rest)
  /\ (forall x, In x next' -> In x next \/ sl_mapped x = false).
Proof.
  revert w kept removed next.
  induction rest as [|x rest IH]; intros w kept removed next H;
    cbn [pt_image_add_loop] in H.
  - injection H as <- <- <- <-. split; intros y Hy; left; exact Hy.
  - assert (Hskip : forall w1 next1,
      pt_image_add_loop E w1 section asid b e (kept ++ [x]) rest removed next1
        = ALDone w' kept' removed' next' ->
      (forall y, In y next1 -> In y next \/ sl_mapped y = false) ->
      (forall y, In y kept' -> In y kept \/ In y (x :: rest))
      /\ (forall y, In y next' -> In y next \/ sl_mapped y = false)).
    { intros w1 next1 H1 Hn1. apply IH in H1. destruct H1 as [H1 H2]. split.
      - intros y Hy. destruct (H1 y Hy) as [Hk | Hr].
        + apply in_app_iff in Hk. destruct Hk as [Hk | [<- | []]];
            [left; exact Hk | right; left; reflexivity].
        + right; right; exact Hr.
      - intros y Hy. destruct (H2 y Hy) as [Hn | Hf]; [apply Hn1; exact Hn | right; exact Hf]. }
    destruct (pt_msec_matches_asid (sl_section x) asid <? 0); [discriminate H |].
    destruct (pt_msec_matches_asid (sl_section x) asid =? 0).
    { eapply Hskip; [exact H | intros y Hy; left; exact Hy]. }
    destruct ((e <=? pt_msec_begin (sl_section x)) || (pt_msec_end (sl_section x) <=? b)).
    { eapply Hskip; [exact H | intros y Hy; left; exact Hy]. }
    destruct (_ && _ && _).
    { destruct removed as [|? ?]; [destruct next as [|? [|? ?]] |]; discriminate. }
    set (w1 := if sl_mapped x then _ else w) in H.
    destruct (if pt_msec_begin (sl_section x) <? b
              then pt_image_clone E w1 next (sl_section x) (pt_msec_begin (sl_section x)) b
              else (0, next, w1)) as [[fe fnext] fw] eqn:Hf.
    destruct (fe <? 0) eqn:Hfe; [discriminate H |].
    assert (Hfr : forall y, In y fnext -> In y next \/ sl_mapped y = false).
    { destruct (pt_msec_begin (sl_section x) <? b).
      - eapply clone_elems; [exact Hf | exact Hfe].
      - injection Hf as _ <- _. intros y Hy; left; exact Hy. }
    destruct (if e <? pt_msec_end (sl_section x)
              then pt_image_clone E fw fnext (sl_section x) e (pt_msec_end (sl_section x))
              else (0, fnext, fw)) as [[be bnext] bw] eqn:Hbk.
    destruct (be <? 0) eqn:Hbe; [discriminate H |].
    assert (Hbr : forall y, In y bnext -> In y fnext \/ sl_mapped y = false).
    { destruct (e <? pt_msec_end (sl_section x)).
      - eapply clone_elems; [exact Hbk | exact Hbe].
      - injection Hbk as _ <- _. intros y Hy; left; exact Hy. }
    apply IH in H. destruct H as [H1 H2]. split.
    + intros y Hy. destruct (H1 y Hy) as [Hk | Hr]; [left; exact Hk | right; right; exact Hr].
    + intros y Hy. destruct (H2 y Hy) as [Hn | Hm]; [| right; exact Hm].
      destruct (Hbr y Hn) as [Hn' | Hm]; [| right; exact Hm].
      exact (Hfr y Hn').
Qed.

Lemma mk_section_list_shape E w section asid vaddr n w' :
  pt_mk_section_list E w section asid vaddr = (Some n, w') -> sl_mapped n = false.
Proof.
  unfold pt_mk_section_list. destruct (malloc_fails E w); [discriminate |].
  simpl. intros H. injection H as <- _. reflexivity.
Qed.

Lemma add_mapped_from_input E img w section asid vaddr :
  let '(_, img', _) := pt_image_add E img w section asid vaddr in
  forall x, In x (sections img') -> sl_mapped x = true -> In x (sections img).
Proof.
  unfold pt_image_add.
  destruct (pt_mk_section_list E w section asid vaddr) as [[n|] wm] eqn:Hmk;
    [| intros x Hx _; exact Hx].
  apply mk_section_list_shape in Hmk.
  lazymatch goal with
  | |- context [pt_image_add_loop ?E' ?w' ?s' ?as' ?b' ?e' ?k' ?r' ?rm' ?nx'] =>
      destruct (pt_image_add_loop E' w' s' as' b' e' k' r' rm' nx') eqn:Hl
  end.
  - intros x Hx _. exact Hx.
  - apply add_loop_break in Hl. destruct Hl as (m & _ & -> & ->).
    intros x Hx Hm. cbn [sections set_sections] in Hx.
    rewrite app_nil_r in Hx. apply in_app_iff in Hx. destruct Hx as [Hx | Hx].
    + apply mask_keep_incl with (m := m). exact Hx.
    + apply in_rev, in_map_iff in Hx. destruct Hx as (y & <- & _). discriminate Hm.
  - apply add_loop_done_elems in Hl. destruct Hl as [H1 H2].
    intros x Hx Hm. cbn [sections set_sections] in Hx.
    apply in_app_iff in Hx. destruct Hx as [Hx | Hx].
    + destruct (H1 x Hx) as [[] | Hr]. exact Hr.
    + destruct (H2 x Hx) as [[<- | []] | Hf]; congruence.
Qed.

(** [pt_image_add] never maps anything: every element marked mapped in the
    resulting list was already in the list before, so the new element and
    the clones it makes for partial overlaps are all unmapped. *)
Theorem pt_image_add_never_maps E img w section asid vaddr :
  let '(_, img', _) := pt_image_add E img w section asid vaddr in
  forall x, In x (sections img') -> sl_mapped x = true -> In x (sections img).
Proof. apply add_mapped_from_input. Qed.

(** [pt_image_copy] never maps anything in the target image: every element
    marked mapped afterwards was already in the target before the copy. *)
Theorem pt_image_copy_never_maps E img w src :
  let '(_, img', _) := pt_image_copy E img w src in
  forall x, In x (sections img') -> sl_mapped x = true -> In x (sections img).
Proof.
  unfold pt_image_copy. generalize 0 as ign.
  revert img w. induction (sections src) as [|y l IH]; intros img w ign; cbn [pt_image_copy_loop].
  - auto.
  - pose proof (add_mapped_from_input E img w (msec_section (sl_section y))
                  (Some (msec_asid (sl_section y))) (msec_vaddr (sl_section y))) as Ha.
    destruct (pt_image_add E img w _ _ _) as [[e1 img1] w1].
    specialize (IH img1 w1 (if e1 <? 0 then ign + 1 else ign)).
    destruct (pt_image_copy_loop E img1 w1 _ l) as [[r img2] w2].
    intros x Hx Hm. apply Ha; [apply IH |]; assumption.
Qed.

(** The number of sections [pt_image_copy] reports as ignored is between 0
    and the number of elements of the source image. *)
Theorem pt_image_copy_ignored E img w src :
  let '(ignored, _, _) := pt_image_copy E img w src in
  0 <= ignored <= Z.of_nat (List.length (sections src)).
Proof.
  unfold pt_image_copy.
  assert (H : forall l i v ign, 0 <= ign ->
    let '(r, _, _) := pt_image_copy_loop E i v ign l in
    ign <= r <= ign + Z.of_nat (List.length l)).
  { induction l as [|y l IH]; intros i v ign Hi; cbn [pt_image_copy_loop].
    - simpl. lia.
    - destruct (pt_image_add E i v _ _ _) as [[e1 img1] w1].
      specialize (IH img1 w1 (if e1 <? 0 then ign + 1 else ign)).
      destruct (pt_image_copy_loop E img1 w1 _ l) as [[r img2] w2].
      cbn [List.length]. rewrite Nat2Z.inj_succ.
      destruct (e1 <? 0); specialize (IH ltac:(lia)); lia. }
  specialize (H (sections src) img w 0 ltac:(lia)).
  destruct (pt_image_copy_loop E img w 0 (sections src)) as [[r ?] ?]. lia.
Qed.

Lemma remove_loop_skips E w s a V prefix pre rest :
  Forall (fun y => sec_id (msec_section (sl_section y)) = sec_id s ->
                   msec_section (sl_section y) = s) pre ->
  Forall (add_skips (Some a) V (u64 (V + sec_size s))) pre ->
  V < u64 (V + sec_size s) ->
  pt_image_remove_loop E w s (Some a) V prefix (pre ++ rest)
  = pt_image_remove_loop E w s (Some a) V (prefix ++ pre) rest.
Proof.
  intros Hid Hsk Hlt. revert prefix.
  induction pre as [|y pre IH]; intros prefix.
  - rewrite app_nil_r. reflexivity.
  - inversion Hid as [|? ? Hy Hid']; subst. inversion Hsk as [|? ? Hs Hsk']; subst.
    cbn [app pt_image_remove_loop].
    destruct Hs as [Hm | (Hm & Hd)]; rewrite Hm; cbn [Z.ltb Z.eqb Z.compare].
    + rewrite IH by assumption. rewrite <- app_assoc. reflexivity.
    + destruct (Nat.eqb (sec_id (msec_section (sl_section y))) (sec_id s)
                && (msec_vaddr (sl_section y) =? V)) eqn:Hq.
      * exfalso. apply andb_true_iff in Hq. destruct Hq as [Hq1 Hq2].
        apply Nat.eqb_eq in Hq1. apply Z.eqb_eq in Hq2.
        specialize (Hy Hq1).
        unfold pt_msec_begin, pt_msec_end, pt_section_size in Hd.
        rewrite Hy, Hq2 in Hd. lia.
      * rewrite IH by assumption. rewrite <- app_assoc. reflexivity.
Qed.

(** Adding a section at an address range that overlaps nothing in its
    address space appends one unmapped element and succeeds; removing the
    same section, asid and address afterwards succeeds, gives back the
    original image and restores every use and map count. *)
Theorem pt_image_add_remove E img w s a V :
  0 <= V -> 0 < sec_size s -> V + sec_size s < 2 ^ 64 ->
  Forall (fun y => sec_id (msec_section (sl_section y)) = sec_id s ->
                   msec_section (sl_section y) = s) (sections img) ->
  Forall (add_skips (Some a) V (u64 (V + sec_size s))) (sections img) ->
  malloc_fails E w = false ->
  0 < w_ucount w (sec_id s) ->
  let '(e1, img1, w1) := pt_image_add E img w s (Some a) V in
  let '(e2, img2, w2) := pt_image_remove E img1 w1 s (Some a) V in
  e1 = 0 /\ sections img1 = sections img ++ [mk_sl (pt_msec_init s (Some a) V) false]
  /\ e2 = 0 /\ img2 = img
  /\ (forall k, w_ucount w2 k = w_ucount w k) /\ (forall k, w_mcount w2 k = w_mcount w k).
Proof.
  intros HV Hs Hr Hid Hsk Hmal Hu.
  assert (Hend : u64 (V + sec_size s) = V + sec_size s)
    by (unfold u64; apply Z.mod_small; lia).
  assert (Hlt : V < u64 (V + sec_size s)) by lia.
  unfold pt_image_add.
  assert (Hmk : pt_mk_section_list E w s (Some a) V
                = (Some (mk_sl (pt_msec_init s (Some a) V) false),
                   set_ucount (tick w) (sec_id s) (w_ucount (tick w) (sec_id s) + 1))).
  { unfold pt_mk_section_list. rewrite Hmal. reflexivity. }
  rewrite Hmk. unfold pt_section_size.
  pose proof (add_loop_skips E (set_ucount (tick w) (sec_id s) (w_ucount (tick w) (sec_id s) + 1))
                s (Some a) V (u64 (V + sec_size s)) [] (sections img) [] []
                [mk_sl (pt_msec_init s (Some a) V) false] Hsk) as Hl.
  rewrite app_nil_r in Hl. cbn [app pt_image_add_loop] in Hl.
  rewrite Hl.
  cbn [pt_section_list_free_tail fold_left].
  unfold pt_image_remove. cbn [sections set_sections].
  rewrite remove_loop_skips by assumption. cbn [app pt_image_remove_loop].
  unfold pt_msec_matches_asid. cbn [sl_section pt_msec_init msec_asid msec_section msec_vaddr].
  rewrite asid_match_refl, Nat.eqb_refl, Z.eqb_refl. cbn -[pt_section_list_free].
  split; [reflexivity |]. split; [reflexivity |]. split; [reflexivity |].
  split; [destruct img; cbn; rewrite !app_nil_r; reflexivity |].
  unfold pt_section_list_free. cbn [sl_mapped sl_section msec_section pt_msec_init].
  rewrite put_after_get by exact Hu. cbn [snd].
  split; intros k; cbn; unfold upd; destruct (Nat.eqb k (sec_id s)) eqn:Hk;
    try (apply Nat.eqb_eq in Hk; subst k); reflexivity.
Qed.

(** Witness: /b added right after /a in cr3=1, then removed. *)
Lemma pt_image_add_remove_witness :
  let '(e1, img1, w1) := pt_image_add env_ok (fst c9_state) b_world section_b (Some (asid_cr3 1)) 0x100 in
  let '(e2, img2, w2) := pt_image_remove env_ok img1 w1 section_b (Some (asid_cr3 1)) 0x100 in
  e1 = 0 /\ sections img1 = sections (fst c9_state)
                            ++ [mk_sl (pt_msec_init section_b (Some (asid_cr3 1)) 0x100) false]
  /\ e2 = 0 /\ img2 = fst c9_state
  /\ (forall k, w_ucount w2 k = w_ucount b_world k)
  /\ (forall k, w_mcount w2 k = w_mcount b_world k).
Proof.
  refine (pt_image_add_remove env_ok (fst c9_state) b_world section_b (asid_cr3 1) 0x100
            _ _ _ _ _ _ _).
  - lia.
  - vm_compute. reflexivity.
  - vm_compute. reflexivity.
  - vm_compute. constructor; [intros H; discriminate H | constructor].
  - remember (sections (fst c9_state)) as l eqn:Hl. vm_compute in Hl. subst l.
    constructor; [| constructor]. right. split; [vm_compute; reflexivity |].
    right. vm_compute. discriminate.
  - reflexivity.
  - vm_compute. reflexivity.
Defined.


Lemma prune_loop_count E w c st m l :
  0 <= m -> m + count_mapped l < 2 ^ 16 ->
  let '(l', _, _, _, log) := pt_image_prune_loop E w c st m l in
  count_mapped l' = Z.min (count_mapped l) (Z.max 0 (c - m)) + nfail log.
Proof.
  revert w st m. induction l as [|x l IH]; intros w st m Hm Hb; cbn [pt_image_prune_loop].
  - cbn [count_mapped nfail]. lia.
  - pose proof (count_mapped_nonneg l).
    cbn [count_mapped] in Hb |- *.
    destruct (sl_mapped x) eqn:Hx; cbn [negb].
    + assert (Hu : u16 (m + 1) = m + 1) by (unfold u16; apply Z.mod_small; lia).
      rewrite Hu.
      destruct (m + 1 <=? c) eqn:Hc.
      * apply Z.leb_le in Hc.
        specialize (IH w st (m + 1) ltac:(lia) ltac:(lia)).
        destruct (pt_image_prune_loop E w c st (m + 1) l) as [[[[l' st'] m'] w'] log].
        cbn [count_mapped]. rewrite Hx. lia.
      * apply Z.leb_gt in Hc.
        destruct (pt_section_unmap E w (msec_section (sl_section x))) as [e w1].
        destruct (e <? 0) eqn:He.
        -- specialize (IH w1 e (m + 1) ltac:(lia) ltac:(lia)).
           destruct (pt_image_prune_loop E w1 c e (m + 1) l) as [[[[l' st'] m'] w'] log].
           cbn [count_mapped nfail]. rewrite Hx, He. lia.
        -- replace (u16 (m + 1 - 1)) with m by (unfold u16; rewrite Z.mod_small; lia).
           specialize (IH w1 st m ltac:(lia) ltac:(lia)).
           destruct (pt_image_prune_loop E w1 c st m l) as [[[[l' st'] m'] w'] log].
           cbn [count_mapped nfail set_flag sl_mapped]. rewrite He. lia.
    + specialize (IH w st m Hm ltac:(lia)).
      destruct (pt_image_prune_loop E w c st m l) as [[[[l' st'] m'] w'] log].
      cbn [count_mapped]. rewrite Hx. lia.
Qed.

(** After [pt_image_prune_cache], the number of mapped elements is the
    smaller of the number before and the cache size, plus one for every
    unmap call that failed (those elements stay marked mapped). *)
Theorem pt_image_prune_cache_count E img w :
  0 <= cache img -> count_mapped (sections img) < 2 ^ 16 ->
  let '(_, img', _) := pt_image_prune_cache E img w in
  count_mapped (sections img')
  = Z.min (count_mapped (sections img)) (cache img) + nfail (pt_image_prune_unmaps E img w).
Proof.
  intros Hc Hb. unfold pt_image_prune_cache, pt_image_prune_unmaps.
  pose proof (prune_loop_count E w (cache img) 0 0 (sections img) ltac:(lia) ltac:(lia)) as H.
  destruct (pt_image_prune_loop E w (cache img) 0 0 (sections img)) as [[[[l' st'] m'] w'] log].
  cbn [sections set_sections set_mapped]. rewrite H. f_equal. f_equal. lia.
Qed.

(** Witness: pruning two mapped elements down to a cache of one. *)
Lemma pt_image_prune_cache_count_witness :
  let '(_, img', _) := pt_image_prune_cache env_ok small_cache_image (snd two_mapped_state) in
  count_mapped (sections img')
  = Z.min (count_mapped (sections small_cache_image)) (cache small_cache_image)
    + nfail (pt_image_prune_unmaps env_ok small_cache_image (snd two_mapped_state)).
Proof.
  apply pt_image_prune_cache_count.
  - vm_compute. discriminate.
  - vm_compute. reflexivity.
Defined.


Lemma same_entries_refl img : same_entries img img.
Proof. repeat split. apply Permutation_refl. Qed.

Lemma prune_cache_entries E img w e img' w' :
  pt_image_prune_cache E img w = (e, img', w') -> same_entries img img'.
Proof.
  unfold pt_image_prune_cache. intros H.
  pose proof (prune_loop_spec E w (cache img) 0 0 (sections img) eq_refl) as Hs.
  destruct (pt_image_prune_loop E w (cache img) 0 0 (sections img)) as [[[[l st] m] w1] log].
  injection H as _ <- _. destruct Hs as [Hs _].
  repeat split; cbn. rewrite Hs. apply Permutation_refl.
Qed.

Lemma same_entries_trans i1 i2 i3 :
  same_entries i1 i2 -> same_entries i2 i3 -> same_entries i1 i3.
Proof.
  intros (P1 & N1 & C1 & X1 & K1) (P2 & N2 & C2 & X2 & K2).
  repeat split; try congruence. eapply Permutation_trans; eassumption.
Qed.

Lemma read_cold_entries E img w buf size a addr prefix rest st b img' w' :
  sections img = prefix ++ rest ->
  pt_image_read_cold E img w buf size a addr prefix rest = (st, b, img', w') ->
  same_entries img img'.
Proof.
  revert w buf prefix st b img' w'.
  induction rest as [|x rest IH]; intros w buf prefix st b img' w' Hs H;
    cbn [pt_image_read_cold] in H.
  - destruct (pt_image_read_callback img buf size a addr). injection H as _ _ <- _.
    apply same_entries_refl.
  - assert (Hmove : forall l m, map sl_section l = map sl_section (x :: prefix ++ rest) ->
              same_entries img (set_mapped (set_sections img l) m)
              /\ same_entries img (set_sections img l)).
    { intros l m Hl. unfold same_entries. cbn. rewrite Hl, Hs. cbn [map]. rewrite !map_app.
      cbn [map]. repeat split; apply Permutation_middle. }
    repeat break_in H; try (injection H as _ _ <- _);
      try (apply same_entries_refl).
    all: try (eapply IH; [rewrite Hs, <- app_assoc; reflexivity | exact H]).
    all: try (apply (Hmove _ 0); reflexivity).
    all: try (apply (Hmove _ (u16 (mapped img + 1))); reflexivity).
    all: try match goal with
         | Hp : pt_image_prune_cache _ _ _ = _ |- _ =>
             apply prune_cache_entries in Hp;
             eapply same_entries_trans; [| exact Hp];
             apply (Hmove _ (u16 (mapped img + 1))); reflexivity
         end.
    all: eapply IH; [| exact H].
    all: rewrite Hs, <- app_assoc; reflexivity.
Qed.

Lemma read_hot_entries E img w buf size a addr prefix rest st b img' w' :
  sections img = prefix ++ rest ->
  pt_image_read_hot E img w buf size a addr prefix rest = (st, b, img', w') ->
  same_entries img img'.
Proof.
  revert buf prefix st b img' w'.
  induction rest as [|x rest IH]; intros buf prefix st b img' w' Hs H;
    cbn [pt_image_read_hot] in H.
  - eapply read_cold_entries; eassumption.
  - destruct (negb (sl_mapped x)).
    + eapply read_cold_entries; eassumption.
    + destruct (pt_msec_read_mapped E w (sl_section x) buf size (Some a) addr) as [s1 b1].
      destruct (s1 <? 0).
      * eapply IH; [| exact H]. rewrite Hs, <- app_assoc; reflexivity.
      * injection H as _ _ <- _. unfold same_entries. cbn. rewrite Hs. cbn [map].
        rewrite !map_app. cbn [map]. repeat split; apply Permutation_middle.
Qed.

(** [pt_image_read] only reorders the image and changes mapped flags: the
    resulting list holds the same mapped sections, and name, callback,
    context and cache size are unchanged. *)
Theorem pt_image_read_entries E img w buf size asid addr :
  let '(_, _, img', _) := pt_image_read E img w buf size asid addr in
  same_entries img img'.
Proof.
  unfold pt_image_read. destruct asid as [a|]; [| apply same_entries_refl].
  destruct (pt_image_read_hot E img w buf size a addr [] (sections img))
    as [[[st b] img'] w'] eqn:H.
  eapply read_hot_entries; [| exact H]. reflexivity.
Qed.

Lemma read_hot_hit E img w buf size a addr prefix pre x post st b :
  Forall (fun y => sl_mapped y = true
                   /\ fst (pt_msec_read_mapped E w (sl_section y) buf size (Some a) addr) < 0) pre ->
  sl_mapped x = true ->
  pt_msec_read_mapped E w (sl_section x) buf size (Some a) addr = (st, b) ->
  0 <= st ->
  pt_image_read_hot E img w buf size a addr prefix (pre ++ x :: post)
  = (st, b, set_sections img (x :: prefix ++ pre ++ post), w).
Proof.
  intros Hpre Hx Hr Hst. revert prefix.
  induction Hpre as [|y pre [Hy Hf] Hpre IH]; intros prefix; cbn [app pt_image_read_hot].
  - rewrite Hx, Hr. cbn [negb]. replace (st <? 0) with false by (symmetry; apply Z.ltb_ge; lia).
    reflexivity.
  - rewrite Hy. cbn [negb].
    pose proof (read_mapped_fail_buf E w (sl_section y) buf size (Some a) addr Hf) as Hb.
    destruct (pt_msec_read_mapped E w (sl_section y) buf size (Some a) addr) as [s1 b1].
    cbn [fst snd] in Hf, Hb. subst b1.
    replace (s1 <? 0) with true by (symmetry; apply Z.ltb_lt; exact Hf).
    rewrite IH, <- app_assoc. reflexivity.
Qed.

(** When the element at [x] is mapped and reads successfully, and every
    element before it is mapped and fails to read, [pt_image_read] returns
    that read's status and buffer, moves [x] to the front of the list and
    maps or unmaps nothing. *)
Theorem pt_image_read_hot_hit E img w buf size a addr pre x post st b :
  sections img = pre ++ x :: post ->
  Forall (fun y => sl_mapped y = true
                   /\ fst (pt_msec_read_mapped E w (sl_section y) buf size (Some a) addr) < 0) pre ->
  sl_mapped x = true ->
  pt_msec_read_mapped E w (sl_section x) buf size (Some a) addr = (st, b) ->
  0 <= st ->
  pt_image_read E img w buf size (Some a) addr
  = (st, b, set_sections img (x :: pre ++ post), w).
Proof.
  intros Hs Hpre Hx Hr Hst. unfold pt_image_read. rewrite Hs.
  apply (read_hot_hit E img w buf size a addr [] pre x post st b Hpre Hx Hr Hst).
Qed.

(** Witness: reading cr3=1 at address 0 fails on /a (cr3=2), then hits /x,
    which moves to the front. *)
Lemma pt_image_read_hot_hit_witness :
  pt_image_read env_ok (fst two_mapped_state) (snd two_mapped_state) [] 4 (Some (asid_cr3 1)) 0
  = (4, [Byte.x00; Byte.x00; Byte.x00; Byte.x00],
     set_sections (fst two_mapped_state) (elem_x :: [elem_a] ++ []),
     snd two_mapped_state).
Proof.
  apply (pt_image_read_hot_hit env_ok (fst two_mapped_state) (snd two_mapped_state) [] 4
           (asid_cr3 1) 0 [elem_a] elem_x [] 4 [Byte.x00; Byte.x00; Byte.x00; Byte.x00]).
  - vm_compute. reflexivity.
  - constructor; [split; [reflexivity | vm_compute; reflexivity] | constructor].
  - reflexivity.
  - vm_compute. reflexivity.
  - lia.
Defined.


Lemma map_ucount E w s k : w_ucount (snd (pt_section_map E w s)) k = w_ucount w k.
Proof. unfold pt_section_map. destruct (map_fails E w s); reflexivity. Qed.

Lemma unmap_ucount E w s k : w_ucount (snd (pt_section_unmap E w s)) k = w_ucount w k.
Proof. apply unmap_frame. Qed.

Lemma prune_loop_ucount E w c st m l k :
  let '(_, _, _, w', _) := pt_image_prune_loop E w c st m l in w_ucount w' k = w_ucount w k.
Proof.
  revert w st m. induction l as [|x l IH]; intros w st m; cbn [pt_image_prune_loop]; [reflexivity |].
  destruct (negb (sl_mapped x)).
  - specialize (IH w st m). destruct (pt_image_prune_loop E w c st m l) as [[[[? ?] ?] ?] ?].
    exact IH.
  - destruct (u16 (m + 1) <=? c).
    + specialize (IH w st (u16 (m + 1))).
      destruct (pt_image_prune_loop E w c st _ l) as [[[[? ?] ?] ?] ?]. exact IH.
    + pose proof (unmap_ucount E w (msec_section (sl_section x)) k) as Hu.
      destruct (pt_section_unmap E w (msec_section (sl_section x))) as [e w1].
      cbn [snd] in Hu. destruct (e <? 0).
      * specialize (IH w1 e (u16 (m + 1))).
        destruct (pt_image_prune_loop E w1 c e _ l) as [[[[? ?] ?] ?] ?]. congruence.
      * specialize (IH w1 st (u16 (u16 (m + 1) - 1))).
        destruct (pt_image_prune_loop E w1 c st _ l) as [[[[? ?] ?] ?] ?]. congruence.
Qed.

Lemma prune_cache_ucount E img w k :
  let '(_, _, w') := pt_image_prune_cache E img w in w_ucount w' k = w_ucount w k.
Proof.
  unfold pt_image_prune_cache. pose proof (prune_loop_ucount E w (cache img) 0 0 (sections img) k).
  destruct (pt_image_prune_loop E w (cache img) 0 0 (sections img)) as [[[[? ?] ?] ?] ?]. exact H.
Qed.

Lemma read_cold_ucount E img w buf size a addr prefix rest k :
  let '(_, _, _, w') := pt_image_read_cold E img w buf size a addr prefix rest in
  w_ucount w' k = w_ucount w k.
Proof.
  revert w buf prefix. induction rest as [|x rest IH]; intros w buf prefix;
    cbn [pt_image_read_cold].
  - destruct (pt_image_read_callback img buf size a addr). reflexivity.
  - destruct (if sl_mapped x then (0, w) else pt_section_map E w (msec_section (sl_section x)))
      as [e1 w1] eqn:H1.
    assert (Hw1 : w_ucount w1 k = w_ucount w k).
    { destruct (sl_mapped x); [injection H1 as _ <-; reflexivity |].
      rewrite <- (map_ucount E w (msec_section (sl_section x)) k), H1. reflexivity. }
    destruct (e1 <? 0); [exact Hw1 |].
    destruct (pt_msec_read_mapped E w1 (sl_section x) buf size (Some a) addr) as [s2 b2].
    destruct (s2 <? 0).
    + destruct (if sl_mapped x then (0, w1) else pt_section_unmap E w1 (msec_section (sl_section x)))
        as [e3 w3] eqn:H3.
      assert (Hw3 : w_ucount w3 k = w_ucount w k).
      { destruct (sl_mapped x); [injection H3 as _ <-; exact Hw1 |].
        rewrite <- Hw1, <- (unmap_ucount E w1 (msec_section (sl_section x)) k), H3. reflexivity. }
      destruct (e3 <? 0); [exact Hw3 |].
      specialize (IH w3 b2 (prefix ++ [x])).
      destruct (pt_image_read_cold E img w3 b2 size a addr (prefix ++ [x]) rest) as [[[? ?] ?] ?].
      congruence.
    + destruct (sl_mapped x); [exact Hw1 |].
      destruct (negb (cache _ =? 0)).
      * destruct (cache _ <? _); [| exact Hw1].
        match goal with |- context [pt_image_prune_cache E ?i w1] =>
          pose proof (prune_cache_ucount E i w1 k) as Hp;
          destruct (pt_image_prune_cache E i w1) as [[e4 i4] w4] end.
        destruct (e4 <? 0); congruence.
      * pose proof (unmap_ucount E w1 (msec_section (sl_section x)) k) as Hu.
        destruct (pt_section_unmap E w1 (msec_section (sl_section x))) as [e5 w5].
        cbn [snd] in Hu. destruct (e5 <? 0); congruence.
Qed.

Lemma read_hot_ucount E img w buf size a addr prefix rest k :
  let '(_, _, _, w') := pt_image_read_hot E img w buf size a addr prefix rest in
  w_ucount w' k = w_ucount w k.
Proof.
  revert buf prefix. induction rest as [|x rest IH]; intros buf prefix;
    cbn [pt_image_read_hot].
  - apply read_cold_ucount.
  - destruct (negb (sl_mapped x)); [apply read_cold_ucount |].
    destruct (pt_msec_read_mapped E w (sl_section x) buf size (Some a) addr) as [s1 b1].
    destruct (s1 <? 0); [apply IH | reflexivity].
Qed.

(** [pt_image_read] never takes or drops a reference to a section: all use
    counts are as before, whatever the outcome. *)
Theorem pt_image_read_keeps_refs E img w buf size asid addr k :
  let '(_, _, _, w') := pt_image_read E img w buf size asid addr in
  w_ucount w' k = w_ucount w k.
Proof.
  unfold pt_image_read. destruct asid as [a|]; [apply read_hot_ucount | reflexivity].
Qed.

Lemma add_loop_keeps E w section asid b e kept rest removed next x :
  In x kept \/ (In x rest /\ pt_msec_matches_asid (sl_section x) asid = 0) ->
  match pt_image_add_loop E w section asid b e kept rest removed next with
  | ALDedup _ => True
  | ALBreak _ _ cur _ _ => In x cur
  | ALDone _ kept' _ _ => In x kept'
  end.
Proof.
  revert w kept removed next.
  induction rest as [|y rest IH]; intros w kept removed next Hx; cbn [pt_image_add_loop].
  - destruct Hx as [Hx | [[] _]]. exact Hx.
  - assert (Hall : In x (kept ++ y :: rest)).
    { apply in_app_iff. destruct Hx as [Hx | [Hx _]]; [left | right]; exact Hx. }
    assert (Hnext : In x (kept ++ [y]) \/ (In x rest /\ pt_msec_matches_asid (sl_section x) asid = 0)).
    { destruct Hx as [Hx | [[<- | Hx] Hm]].
      - left. apply in_app_iff. left. exact Hx.
      - left. apply in_app_iff. right. left. reflexivity.
      - right. auto. }
    destruct (pt_msec_matches_asid (sl_section y) asid <? 0); [exact Hall |].
    destruct (pt_msec_matches_asid (sl_section y) asid =? 0) eqn:Hz; [apply IH; exact Hnext |].
    destruct (_ || _); [apply IH; exact Hnext |].
    assert (Hrest : In x kept \/ (In x rest /\ pt_msec_matches_asid (sl_section x) asid = 0)).
    { destruct Hx as [Hx | [[<- | Hx] Hm]]; [left; exact Hx | | right; auto].
      rewrite Hm in Hz. discriminate Hz. }
    assert (Hrest' : In x (kept ++ rest)).
    { apply in_app_iff. destruct Hrest as [Hr | [Hr _]]; [left | right]; exact Hr. }
    destruct (_ && _ && _).
    { destruct removed as [|? ?]; [destruct next as [|? [|? ?]] |]; solve [exact I | exact Hall]. }
    match goal with |- context [if ?c then pt_image_clone E ?w1 next _ _ _ else _] =>
      destruct (if c then pt_image_clone E w1 next _ _ _ else _) as [[fe fnext] fw] end.
    destruct (fe <? 0); [exact Hrest' |].
    match goal with |- context [if ?c then pt_image_clone E fw fnext _ _ _ else _] =>
      destruct (if c then pt_image_clone E fw fnext _ _ _ else _) as [[be bnext] bw] end.
    destruct (be <? 0); [exact Hrest' |].
    apply IH. exact Hrest.
Qed.

(** [pt_image_add] never drops an element whose asid does not match the
    added section's asid, whether it succeeds or fails. *)
Theorem pt_image_add_keeps_other_asids E img w section asid vaddr :
  let '(_, img', _) := pt_image_add E img w section asid vaddr in
  forall x, In x (sections img) -> pt_msec_matches_asid (sl_section x) asid = 0 ->
  In x (sections img').
Proof.
  unfold pt_image_add.
  destruct (pt_mk_section_list E w section asid vaddr) as [[n|] wm]; [| auto].
  destruct (pt_image_add_loop E wm section asid vaddr (u64 (vaddr + pt_section_size section))
              [] (sections img) [] [n]) eqn:Hl;
    intros x Hx Hm;
    pose proof (add_loop_keeps E wm section asid vaddr (u64 (vaddr + pt_section_size section))
                  [] (sections img) [] [n] x (or_intror (conj Hx Hm))) as H;
    rewrite Hl in H; cbn [sections set_sections]; [exact Hx | |]; apply in_app_iff; left; exact H.
Qed.
